(** * pandemic_helper: the deck model of [helper_cli.py]

    A shallow embedding of class [Decks] (the infection decks, the discard
    pile and the card colours), of its snapshot persistence and of the
    grouped summary used for printing, followed by the properties of the
    specification that were checked against it.

    Conventions.
    - A Python [str] is modelled by its UTF-8 byte string ([string]); the
      byte-wise lexicographic order [String.le] coincides with Python's
      code point order on [str].
    - A Python exception is a value of [exn]; a method that can raise
      returns a [result].
    - [list.sort] is modelled by stdpp's [merge_sort]; it is driven by the
      "not greater" relation derived from [<], as Python's sort is. *)

From Stdlib Require Import Ascii.
From stdpp Require Import base tactics option list sorting strings pretty gmap fin_maps.

Open Scope string_scope.
Open Scope list_scope.

(** ** Exceptions and results *)

Inductive exn : Type :=
| IndexError                (* indexing or popping an empty list *)
| ValueError                (* list.remove(x): x not in list *)
| KeyError (key : string)   (* del d[k]: k not in d *)
| JSONDecodeError           (* json.load on a malformed document *)
| AttributeError            (* obj.get on a document that is not an object *)
| IllTyped.                 (* not a Python exception: a snapshot field whose
                               shape is not the one declared in __init__;
                               Python stores it unchecked, the typed model
                               has no state for it *)

Inductive result (A : Type) : Type :=
| Ok (a : A)
| Raise (e : exn).
Arguments Ok {A} a.
Arguments Raise {A} e.

Definition bind {A B : Type} (r : result A) (k : A → result B) : result B :=
  match r with
  | Ok a => k a
  | Raise e => Raise e
  end.

(** [x ← r; k] is stdpp's notation for [bind r (λ x, k)]. *)
Global Instance result_bind : MBind result := λ A B k r, bind r k.

Global Instance exn_eq_dec : EqDecision exn.
Proof. solve_decision. Defined.

(** ** The state: class [Decks] *)

Record Decks : Type := mkDecks {
  infection_deck : list (list string);
  discard_pile : list string;
  card_to_color : gmap string string
}.

(** ** List primitives of Python used by the methods *)

(** [l[0]] *)
Definition getitem0 {A : Type} (l : list A) : result A :=
  match l with
  | [] => Raise IndexError
  | x :: _ => Ok x
  end.

(** [l.pop(0)], the list that is left *)
Definition pop0 {A : Type} (l : list A) : result (list A) :=
  match l with
  | [] => Raise IndexError
  | _ :: l' => Ok l'
  end.

(** [l.remove(x)]: drops the first element equal to [x] *)
Fixpoint list_remove (x : string) (l : list string) : result (list string) :=
  match l with
  | [] => Raise ValueError
  | y :: l' =>
      if decide (y = x) then Ok l'
      else l'' ← list_remove x l'; Ok (y :: l'')
  end.

(** [l.sort()] on a list of [str] *)
Definition sort (l : list string) : list string := merge_sort String.le l.

(** ** The mutating methods *)

Definition draw (card : string) (self : Decks) : result Decks :=
  top ← getitem0 (infection_deck self);
  infection ←
    (if decide (card ∈ top) then
       top' ← list_remove card top;
       (* the first deck is mutated in place *)
       let infection' := <[0 := top']> (infection_deck self) in
       if decide (top' = []) then pop0 infection' else Ok infection'
     else Ok (infection_deck self));
  Ok {| infection_deck := infection;
        discard_pile := sort (discard_pile self ++ [card]);
        card_to_color := card_to_color self |}.

Definition reshuffle_discard (self : Decks) : Decks :=
  if decide (0 < length (discard_pile self)) then
    {| infection_deck := discard_pile self :: infection_deck self;
       discard_pile := [];
       card_to_color := card_to_color self |}
  else self.

Definition remove_discard (card : string) (self : Decks) : result Decks :=
  if decide (card ∈ discard_pile self) then
    discard ← list_remove card (discard_pile self);
    Ok {| infection_deck := infection_deck self;
          discard_pile := discard;
          card_to_color := card_to_color self |}
  else Ok self.

Definition mark_card (card color : string) (self : Decks) : Decks :=
  {| infection_deck := infection_deck self;
     discard_pile := discard_pile self;
     card_to_color := <[card := color]> (card_to_color self) |}.

Definition unmark_card (card : string) (self : Decks) : result Decks :=
  match card_to_color self !! card with
  | None => Raise (KeyError card)
  | Some _ =>
      Ok {| infection_deck := infection_deck self;
            discard_pile := discard_pile self;
            card_to_color := delete card (card_to_color self) |}
  end.

(** The five mutations, as the commands of the dispatcher issue them. *)
Inductive mutation : Type :=
| Draw (card : string)
| ReshuffleDiscard
| RemoveDiscard (card : string)
| MarkCard (card color : string)
| UnmarkCard (card : string).

Definition apply_mutation (m : mutation) (self : Decks) : result Decks :=
  match m with
  | Draw card => draw card self
  | ReshuffleDiscard => Ok (reshuffle_discard self)
  | RemoveDiscard card => remove_discard card self
  | MarkCard card color => Ok (mark_card card color self)
  | UnmarkCard card => unmark_card card self
  end.

(** A sequence of mutations, stopping at the first exception. *)
Fixpoint apply_mutations (ms : list mutation) (self : Decks) : result Decks :=
  match ms with
  | [] => Ok self
  | m :: ms' => self' ← apply_mutation m self; apply_mutations ms' self'
  end.

(** ** Printing: the grouped summary *)

(** [card_counts] is a Python dict: keys are unique and keep the order in
    which they were first inserted, which is the order of [items()]. *)
Definition counts : Type := list (string * nat).

(** [d.get(k, dflt)] *)
Fixpoint dict_get (d : counts) (k : string) (dflt : nat) : nat :=
  match d with
  | [] => dflt
  | (k', v) :: d' => if decide (k' = k) then v else dict_get d' k dflt
  end.

(** [d[k] = v]: an existing key keeps its position, a new key goes last *)
Fixpoint dict_set (d : counts) (k : string) (v : nat) : counts :=
  match d with
  | [] => [(k, v)]
  | (k', v') :: d' =>
      if decide (k' = k) then (k', v) :: d' else (k', v') :: dict_set d' k v
  end.

(** [card_counts[card] = card_counts.get(card, 0) + 1] *)
Definition count_card (card_counts : counts) (card : string) : counts :=
  dict_set card_counts card (dict_get card_counts card 0 + 1).

(** The comparator [Decks.compare] on [(count, card)] tuples. *)
Definition compare (item1 item2 : nat * string) : Z :=
  let count1 := item1.1 in
  let count2 := item2.1 in
  if decide (count2 < count1) then (-1)%Z        (* count1 > count2 *)
  else if decide (count1 < count2) then 1%Z      (* count2 > count1 *)
  else
    let name1 := item1.2 in
    let name2 := item2.2 in
    if String.ltb name2 name1 then 1%Z           (* name1 > name2 *)
    else if String.ltb name1 name2 then (-1)%Z   (* name2 > name1 *)
    else 0%Z.

(** [cmp_to_key(compare)]: the key of [a] is less than the key of [b]
    when [compare a b < 0]. *)
Definition key_lt (a b : nat * string) : Prop := (compare a b < 0)%Z.

(** The relation that drives the sort: [b] is not less than [a]. *)
Definition key_le (a b : nat * string) : Prop := ¬ key_lt b a.

Global Instance key_le_dec : RelDecision key_le.
Proof. intros a b. unfold key_le, key_lt. apply _. Defined.

(** [[(v, k) for k, v in card_counts.items()]] followed by
    [card_tuples.sort(key=cmp_to_key(self.compare))] *)
Definition sorted_tuples (card_counts : counts) : list (nat * string) :=
  merge_sort key_le ((λ kv, (kv.2, kv.1)) <$> card_counts).

Section Printing.
(** [termcolor.colored(text, on_color=...)] is a library function. *)
Variable colored : string → string → string.

Definition _format_name (self : Decks) (card : string) : string :=
  match card_to_color self !! card with
  | Some color => colored card ("on_" +:+ color)
  | None => card
  end.

(** The variables of [_print_formatting] that live across iterations.
    [card_tuples] is unbound until the first iteration; [[]] stands for
    that. *)
Record fmt_state : Type := mkFmt {
  card_counts : counts;
  card_tuples : list (nat * string);
  reprs : list string
}.

(** One iteration of [for card in lis]. *)
Definition fmt_step (self : Decks) (st : fmt_state) (card : string) : fmt_state :=
  let card_counts' := count_card (card_counts st) card in
  let card_tuples' := sorted_tuples card_counts' in
  {| card_counts := card_counts';
     card_tuples := card_tuples';
     reprs :=
       (λ t, "x" +:+ pretty t.1 +:+ " " +:+ _format_name self t.2)
         <$> card_tuples' |}.

Definition fmt_loop (self : Decks) (lis : list string) : fmt_state :=
  foldl (fmt_step self) {| card_counts := []; card_tuples := []; reprs := [] |} lis.

Definition _print_formatting (self : Decks) (lis : list string) : list string :=
  reprs (fmt_loop self lis).
End Printing.

(** The grouped summary of a card sequence: the [(count, card)] tuples
    that [_print_formatting] renders. They depend neither on the colours
    nor on the state. *)
Definition summary (lis : list string) : list (nat * string) :=
  card_tuples (fmt_loop (λ text _, text) (mkDecks [] [] ∅) lis).

(** Number of occurrences of a card in a sequence ([lis.count(card)]). *)
Definition count (card : string) (lis : list string) : nat :=
  length (filter (λ x, x = card) lis).

(** ** Persistence: snapshots *)

Local Unset Elimination Schemes.

(** The values of Python's [json] module (float literals are left out: no
    snapshot written by [save] holds a number). *)
Inductive json : Type :=
| JNull
| JBool (b : bool)
| JInt (n : Z)
| JStr (s : string)
| JList (l : list json)
| JDict (d : gmap string json).

Local Set Elimination Schemes.

(** How the three fields appear as [json] values. *)
Definition json_of_cards (cards : list string) : json := JList (JStr <$> cards).
Definition json_of_decks (decks : list (list string)) : json :=
  JList (json_of_cards <$> decks).
Definition json_of_colors (colors : gmap string string) : json :=
  JDict (JStr <$> colors).

(** Reading a [json] value at the type a field is declared with in
    [__init__]; [None] when the value has another shape. *)
Definition str_of_json (j : json) : option string :=
  match j with
  | JStr s => Some s
  | _ => None
  end.
Definition cards_of_json (j : json) : option (list string) :=
  match j with
  | JList l => mapM str_of_json l
  | _ => None
  end.
Definition decks_of_json (j : json) : option (list (list string)) :=
  match j with
  | JList l => mapM cards_of_json l
  | _ => None
  end.
Definition colors_of_json (j : json) : option (gmap string string) :=
  match j with
  | JDict d =>
      if decide (map_Forall (λ _ v, is_Some (str_of_json v)) d)
      then Some (omap str_of_json d)
      else None
  | _ => None
  end.

Definition typed {A : Type} (o : option A) : result A :=
  match o with
  | Some a => Ok a
  | None => Raise IllTyped
  end.

Section Persistence.
(** The text of a file, and [json.dump] / [json.load] between [json]
    values and that text; [json_load] gives [None] on a malformed
    document. Both belong to Python's library. *)
Context {text : Type}.
Variable json_dump : json → text.
Variable json_load : text → option json.

(** The file system is the map from the names of the files that exist
    to their text. *)

Definition save (self : Decks) (file_name : string) (fs : gmap string text) :
    gmap string text :=
  <[file_name :=
      json_dump
        (JDict
           (<["infection" := json_of_decks (infection_deck self)]>
           (<["discard" := json_of_cards (discard_pile self)]>
           (<["card_to_color" := json_of_colors (card_to_color self)]> ∅))))]> fs.

Definition load (file_name : string) (fs : gmap string text) : result Decks :=
  obj ←
    match fs !! file_name with
    | None => Ok (JDict ∅)                      (* FileNotFoundError *)
    | Some contents =>
        match json_load contents with
        | Some j => Ok j
        | None => Raise JSONDecodeError
        end
    end;
  match obj with
  | JDict d =>
      infection ←
        typed (decks_of_json (default (JList [JList []]) (d !! "infection")));
      discard ← typed (cards_of_json (default (JList []) (d !! "discard")));
      colors ←
        typed (colors_of_json (default (JDict ∅) (d !! "card_to_color")));
      Ok {| infection_deck := infection;
            discard_pile := discard;
            card_to_color := colors |}
  | _ => Raise AttributeError
  end.
End Persistence.

(** The state [load] returns when the file is missing. *)
Definition empty_state : Decks :=
  {| infection_deck := [[]]; discard_pile := []; card_to_color := ∅ |}.

(** ** Printing the state: [Decks.print] *)

(** The characters written as [\t] and [\n] in the source. *)
Definition tab : string := String "009"%char "".
Definition newline : string := String "010"%char "".

Section Print.
Variable colored : string → string → string.

(** The lines printed for the deck at position [i] (from 0); an empty
    deck is skipped. *)
Definition print_deck (self : Decks) (i : nat) (deck : list string) : list string :=
  if decide (length deck = 0) then []
  else
    ("deck " +:+ pretty (i + 1) +:+ ": " +:+ pretty (length deck))
    :: ((λ name, tab +:+ name) <$> _print_formatting colored self deck).

(** The arguments of the successive calls of [print], in order. *)
Definition print (self : Decks) : list string :=
  ["Infection decks (topmost first):"]
  ++ concat (imap (print_deck self) (infection_deck self))
  ++ [newline +:+ "Discard: " +:+ pretty (length (discard_pile self))]
  ++ ((λ name, tab +:+ name) <$> _print_formatting colored self (discard_pile self)).
End Print.

(** ** The commands *)

Definition SAVE_FILE_NAME : string := "save.json".
Definition STATE_FILE_NAME : string := "state.json".

(** [s.replace(a, b)] for one-character [a] and [b] *)
Fixpoint replace (a b : ascii) (s : string) : string :=
  match s with
  | EmptyString => EmptyString
  | String c s' => String (if decide (c = a) then b else c) (replace a b s')
  end.

(** The names a command can be called by: [AliasedGroup.get_command]. *)
Inductive command_name : Type :=
| CmdPrint | CmdDrawCard | CmdRemoveDiscard | CmdShuffle | CmdMark | CmdSave | CmdLoad.

Definition shorthands : gmap string string :=
  <["p" := "print"]> (<["dc" := "draw_card"]> (<["rd" := "remove_discard"]> ∅)).

(** [click.Group.get_command]: the command registered under a name. *)
Definition registered : gmap string command_name :=
  <["print" := CmdPrint]> (<["draw_card" := CmdDrawCard]>
  (<["remove_discard" := CmdRemoveDiscard]> (<["shuffle" := CmdShuffle]>
  (<["mark" := CmdMark]> (<["save" := CmdSave]> (<["load" := CmdLoad]> ∅)))))).

Definition get_command (cmd_name : string) : option command_name :=
  let cmd_name :=
    match shorthands !! cmd_name with
    | Some full => full
    | None => cmd_name
    end in
  registered !! cmd_name.

Section Commands.
Context {text : Type}.
Variable json_dump : json → text.
Variable json_load : text → option json.
(** [str.strip] and [str.lower] belong to Python. *)
Variable str_strip : string → string.
Variable str_lower : string → string.
(** [file.readlines] on the text of a file. *)
Variable readlines : text → list string.

(** [card.replace("_", " ").strip().lower()] *)
Definition normalise (card : string) : string :=
  str_lower (str_strip (replace "_" " " card)).

(** A command reads the working snapshot, changes the state in memory,
    writes a snapshot and then prints the state. What it returns here is
    the file system after the write together with the state it goes on
    to print; [Raise] is an exception before the write, which leaves the
    files as they were. *)
Definition _print (fs : gmap string text) : result (gmap string text * Decks) :=
  decks ← load json_load STATE_FILE_NAME fs;
  Ok (fs, decks).

Definition draw_card (cards : list string) (fs : gmap string text) :
    result (gmap string text * Decks) :=
  decks ← load json_load STATE_FILE_NAME fs;
  decks ← apply_mutations ((λ card, Draw (normalise card)) <$> cards) decks;
  Ok (save json_dump decks STATE_FILE_NAME fs, decks).

Definition remove_discard_cmd (cards : list string) (fs : gmap string text) :
    result (gmap string text * Decks) :=
  decks ← load json_load STATE_FILE_NAME fs;
  decks ← apply_mutations ((λ card, RemoveDiscard (normalise card)) <$> cards) decks;
  Ok (save json_dump decks STATE_FILE_NAME fs, decks).

Definition shuffle (fs : gmap string text) : result (gmap string text * Decks) :=
  decks ← load json_load STATE_FILE_NAME fs;
  let decks := reshuffle_discard decks in
  Ok (save json_dump decks STATE_FILE_NAME fs, decks).

Definition mark (color : string) (cards : list string) (fs : gmap string text) :
    result (gmap string text * Decks) :=
  decks ← load json_load STATE_FILE_NAME fs;
  decks ←
    apply_mutations
      ((λ card,
          if decide (str_lower color = "none") then UnmarkCard (normalise card)
          else MarkCard (normalise card) color) <$> cards)
      decks;
  Ok (save json_dump decks STATE_FILE_NAME fs, decks).

Definition save_cmd (fs : gmap string text) : result (gmap string text * Decks) :=
  decks ← load json_load STATE_FILE_NAME fs;
  Ok (save json_dump decks SAVE_FILE_NAME fs, decks).

Definition load_cmd (fs : gmap string text) : result (gmap string text * Decks) :=
  decks ← load json_load SAVE_FILE_NAME fs;
  Ok (save json_dump decks STATE_FILE_NAME fs, decks).

(** One invocation of the program. *)
Inductive invocation : Type :=
| IPrint
| IDrawCard (cards : list string)
| IRemoveDiscard (cards : list string)
| IShuffle
| IMark (color : string) (cards : list string)
| ISave
| ILoad.

Definition invoke (i : invocation) (fs : gmap string text) :
    result (gmap string text * Decks) :=
  match i with
  | IPrint => _print fs
  | IDrawCard cards => draw_card cards fs
  | IRemoveDiscard cards => remove_discard_cmd cards fs
  | IShuffle => shuffle fs
  | IMark color cards => mark color cards fs
  | ISave => save_cmd fs
  | ILoad => load_cmd fs
  end.

(** The file system after an invocation: an exception leaves it as it
    was. *)
Definition files_after (i : invocation) (fs : gmap string text) : gmap string text :=
  match invoke i fs with
  | Ok (fs', _) => fs'
  | Raise _ => fs
  end.

(** The file system after a sequence of invocations. *)
Definition session (invs : list invocation) (fs : gmap string text) :
    gmap string text :=
  foldl (λ fs i, files_after i fs) fs invs.

(** [CardNameType.shell_complete]: the values of the completion items. *)
Definition shell_complete (fs : gmap string text) (incomplete : string) : list string :=
  let cities :=
    match fs !! "cards.txt" with
    | Some contents =>
        str_strip <$> filter (λ c, 0 < String.length c) (readlines contents)
    | None => []                                 (* FileNotFoundError *)
    end in
  filter (λ name, String.prefix incomplete name = true)
    ((λ name, replace " " "_" (str_lower name)) <$> cities).
End Commands.

(** ** Predicates used to state the properties *)

(** No deck of the sequence is empty. *)
Definition no_empty_deck (decks : list (list string)) : Prop :=
  Forall (λ deck, deck ≠ []) decks.

(** The sequence ends with the empty sentinel deck of the initial state,
    and no deck above it is empty. *)
Definition sentinel_bottom (decks : list (list string)) : Prop :=
  ∃ above, decks = above ++ [[]] ∧ no_empty_deck above.

(** Sorted ascending by card identifier. *)
Definition sorted (cards : list string) : Prop := StronglySorted String.le cards.

(** Descending count, ties by ascending card identifier. *)
Definition before (a b : nat * string) : Prop :=
  b.1 < a.1 ∨ (a.1 = b.1 ∧ String.ltb a.2 b.2 = true).

(** Every card the state holds, deck after deck, then the discard pile. *)
Definition all_cards (self : Decks) : list string :=
  concat (infection_deck self) ++ discard_pile self.

(** The working snapshot and the save file, each read with [load], hold
    a state whose decks end with the sentinel deck. *)
Definition snapshots_keep_sentinel {text : Type} (json_load : text → option json)
    (fs : gmap string text) : Prop :=
  ∀ file_name, file_name = STATE_FILE_NAME ∨ file_name = SAVE_FILE_NAME →
    ∃ s, load json_load file_name fs = Ok s ∧ sentinel_bottom (infection_deck s).

(** ** Facts about the list primitives *)

Lemma bind_Ok {A B : Type} (r : result A) (k : A → result B) (b : B) :
  bind r k = Ok b ↔ ∃ a, r = Ok a ∧ k a = Ok b.
Proof.
  destruct r as [a|e]; simpl.
  - split; [eauto | by intros (? & [= <-] & ?)].
  - split; [done | by intros (? & ? & ?)].
Qed.

Lemma list_remove_elem_of x l :
  x ∈ l → ∃ l', list_remove x l = Ok l' ∧ l ≡ₚ x :: l'.
Proof.
  induction l as [|y l IH]; intros Hin; [by apply elem_of_nil in Hin|].
  simpl. destruct (decide (y = x)) as [->|Hne]; [eauto|].
  apply elem_of_cons in Hin as [->|Hin]; [done|].
  destruct (IH Hin) as (l' & -> & Hp). simpl.
  eexists; split; [done|]. rewrite Hp. apply Permutation_swap.
Qed.

Lemma list_remove_Ok_inv x l l' :
  list_remove x l = Ok l' → ∃ l1 l2, l = l1 ++ x :: l2 ∧ l' = l1 ++ l2 ∧ (x ∉ l1).
Proof.
  revert l'. induction l as [|y l IH]; intros l'; simpl; [done|].
  destruct (decide (y = x)) as [->|Hne].
  - intros [= <-]. exists [], l. split_and!; [done..|]. apply not_elem_of_nil.
  - intros (l'' & Hr & [= <-])%bind_Ok.
    destruct (IH _ Hr) as (l1 & l2 & -> & -> & Hnin).
    exists (y :: l1), l2. split_and!; [done..|].
    rewrite not_elem_of_cons. auto.
Qed.

Lemma list_remove_nil x l : list_remove x l = Ok [] ↔ l = [x].
Proof.
  split.
  - intros (l1 & l2 & -> & Hnil & _)%list_remove_Ok_inv.
    symmetry in Hnil. apply app_eq_nil in Hnil as [-> ->]. done.
  - intros ->. simpl. by rewrite decide_True.
Qed.

Lemma list_remove_sorted x l l' :
  sorted l → list_remove x l = Ok l' → sorted l'.
Proof.
  intros Hs (l1 & l2 & -> & -> & _)%list_remove_Ok_inv.
  unfold sorted in *.
  apply StronglySorted_app in Hs as (H12 & H1 & H2).
  apply StronglySorted_app. split_and!; [|done|by inv H2].
  intros a b Ha Hb. apply H12; [done|]. by apply elem_of_cons; right.
Qed.

Lemma sort_sorted l : sorted (sort l).
Proof. apply (StronglySorted_merge_sort String.le). Qed.

Lemma sort_Permutation l : sort l ≡ₚ l.
Proof. apply merge_sort_Permutation. Qed.

Lemma count_Permutation c l1 l2 : l1 ≡ₚ l2 → count c l1 = count c l2.
Proof. intros Hp. unfold count. by rewrite Hp. Qed.

Lemma count_app c l1 l2 : count c (l1 ++ l2) = count c l1 + count c l2.
Proof. unfold count. by rewrite filter_app, length_app. Qed.

Lemma count_cons c x l :
  count c (x :: l) = (if decide (x = c) then 1 else 0) + count c l.
Proof. unfold count. rewrite filter_cons. by destruct (decide (x = c)). Qed.

Lemma count_pos c l : 0 < count c l ↔ c ∈ l.
Proof.
  induction l as [|x l IH]; [rewrite elem_of_nil; unfold count; simpl; lia|].
  rewrite count_cons, elem_of_cons.
  destruct (decide (x = c)) as [->|Hne]; [split; [auto | lia]|].
  simpl. rewrite IH. split; [auto | by intros [->|?]].
Qed.

(** ** Facts about [draw] *)

(** What [draw] does on a state with at least one deck. *)
Lemma draw_cons c s top rest :
  infection_deck s = top :: rest →
  ∃ infection,
    draw c s = Ok {| infection_deck := infection;
                     discard_pile := sort (discard_pile s ++ [c]);
                     card_to_color := card_to_color s |} ∧
    (((c ∉ top) ∧ infection = top :: rest) ∨
     (c ∈ top ∧ ∃ top', list_remove c top = Ok top' ∧
        ((top' = [] ∧ infection = rest) ∨
         (top' ≠ [] ∧ infection = top' :: rest)))).
Proof.
  intros Hdecks. unfold draw. rewrite Hdecks. simpl.
  destruct (decide (c ∈ top)) as [Hin|Hnin]; simpl.
  - destruct (list_remove_elem_of _ _ Hin) as (top' & Hrem & _).
    rewrite Hrem. simpl.
    destruct (decide (top' = [])) as [->|Hne]; simpl;
      (eexists; split; [done|]); right; (split; [done|]).
    + exists []. eauto.
    + exists top'. eauto.
  - eexists; split; [done|]. by left.
Qed.

Lemma draw_nil c s : infection_deck s = [] → draw c s = Raise IndexError.
Proof. intros Hdecks. unfold draw. by rewrite Hdecks. Qed.

Lemma draw_Ok_discard c s s' :
  draw c s = Ok s' → discard_pile s' = sort (discard_pile s ++ [c]).
Proof.
  intros Hdraw. destruct (infection_deck s) as [|top rest] eqn:Hdecks.
  - by rewrite (draw_nil _ _ Hdecks) in Hdraw.
  - destruct (draw_cons c _ _ _ Hdecks) as (inf & Heq & _).
    rewrite Heq in Hdraw. by injection Hdraw as <-.
Qed.

Lemma remove_discard_Ok c s :
  ∃ discard,
    remove_discard c s = Ok {| infection_deck := infection_deck s;
                               discard_pile := discard;
                               card_to_color := card_to_color s |} ∧
    (((c ∉ discard_pile s) ∧ discard = discard_pile s) ∨
     (c ∈ discard_pile s ∧ list_remove c (discard_pile s) = Ok discard)).
Proof.
  unfold remove_discard. destruct (decide (c ∈ discard_pile s)) as [Hin|Hnin].
  - destruct (list_remove_elem_of _ _ Hin) as (d & Hrem & _).
    rewrite Hrem. simpl. exists d. split; [done|]. by right.
  - exists (discard_pile s). split; [by destruct s|]. by left.
Qed.

Lemma unmark_card_Ok_inv c s s' :
  unmark_card c s = Ok s' →
  is_Some (card_to_color s !! c) ∧
  s' = {| infection_deck := infection_deck s;
          discard_pile := discard_pile s;
          card_to_color := delete c (card_to_color s) |}.
Proof.
  unfold unmark_card. destruct (card_to_color s !! c) as [color|]; [|done].
  intros [= <-]. eauto.
Qed.

(** ** How each mutation treats the decks *)

(** A mutation is a [draw], a [reshuffle_discard], or leaves the decks
    alone. *)
Lemma apply_mutation_decks m s s' :
  apply_mutation m s = Ok s' →
  (∃ c, m = Draw c ∧ draw c s = Ok s') ∨
  (m = ReshuffleDiscard ∧ s' = reshuffle_discard s) ∨
  infection_deck s' = infection_deck s.
Proof.
  destruct m as [c| |c|c color|c]; simpl; intros Happ.
  - left. eauto.
  - right; left. by injection Happ as <-.
  - right; right. destruct (remove_discard_Ok c s) as (d & Heq & _).
    rewrite Heq in Happ. by injection Happ as <-.
  - right; right. by injection Happ as <-.
  - right; right. by apply unmark_card_Ok_inv in Happ as [_ ->].
Qed.

Lemma draw_no_empty_deck c s s' :
  draw c s = Ok s' →
  no_empty_deck (infection_deck s) → no_empty_deck (infection_deck s').
Proof.
  intros Hdraw Hinv. destruct (infection_deck s) as [|top rest] eqn:Hdecks.
  { by rewrite (draw_nil _ _ Hdecks) in Hdraw. }
  destruct (draw_cons c _ _ _ Hdecks) as (inf & Heq & Hcases).
  rewrite Heq in Hdraw. injection Hdraw as <-. simpl.
  apply Forall_cons in Hinv as [Htop Hrest].
  destruct Hcases as [[_ ->]|(_ & top' & _ & [[_ ->]|[Hne ->]])].
  - by apply Forall_cons.
  - done.
  - by apply Forall_cons.
Qed.

Lemma reshuffle_no_empty_deck s :
  no_empty_deck (infection_deck s) →
  no_empty_deck (infection_deck (reshuffle_discard s)).
Proof.
  intros Hinv. unfold reshuffle_discard.
  destruct (decide (0 < length (discard_pile s))) as [Hlen|]; [|done].
  simpl. apply Forall_cons. split; [|done].
  intros Hnil. rewrite Hnil in Hlen. simpl in Hlen. lia.
Qed.

Lemma draw_sentinel_bottom c s s' :
  draw c s = Ok s' →
  sentinel_bottom (infection_deck s) → sentinel_bottom (infection_deck s').
Proof.
  intros Hdraw (above & Happ & Habove).
  destruct above as [|top above]; simpl in Happ.
  - (* only the sentinel is left: it holds no card, so it stays *)
    destruct (draw_cons c _ _ _ Happ) as (inf & Heq & Hcases).
    rewrite Heq in Hdraw. injection Hdraw as <-. simpl.
    destruct Hcases as [[_ ->]|(Hin & _)]; [by exists []|].
    by apply elem_of_nil in Hin.
  - destruct (draw_cons c _ _ _ Happ) as (inf & Heq & Hcases).
    rewrite Heq in Hdraw. injection Hdraw as <-. simpl.
    apply Forall_cons in Habove as [Htop Habove].
    destruct Hcases as [[_ ->]|(_ & top' & _ & [[_ ->]|[Hne ->]])].
    + exists (top :: above). split; [done|]. by apply Forall_cons.
    + by exists above.
    + exists (top' :: above). split; [done|]. by apply Forall_cons.
Qed.

Lemma reshuffle_sentinel_bottom s :
  sentinel_bottom (infection_deck s) →
  sentinel_bottom (infection_deck (reshuffle_discard s)).
Proof.
  intros (above & Happ & Habove). unfold reshuffle_discard.
  destruct (decide (0 < length (discard_pile s))) as [Hlen|]; [|by exists above].
  simpl. exists (discard_pile s :: above). rewrite Happ. split; [done|].
  apply Forall_cons. split; [|done].
  intros Hnil. rewrite Hnil in Hlen. simpl in Hlen. lia.
Qed.

Lemma apply_mutation_no_empty_deck m s s' :
  apply_mutation m s = Ok s' →
  no_empty_deck (infection_deck s) → no_empty_deck (infection_deck s').
Proof.
  intros [(c & -> & Hdraw)|[[-> ->]| ->]]%apply_mutation_decks;
    eauto using draw_no_empty_deck, reshuffle_no_empty_deck.
Qed.

Lemma apply_mutation_sentinel_bottom m s s' :
  apply_mutation m s = Ok s' →
  sentinel_bottom (infection_deck s) → sentinel_bottom (infection_deck s').
Proof.
  intros [(c & -> & Hdraw)|[[-> ->]| ->]]%apply_mutation_decks;
    eauto using draw_sentinel_bottom, reshuffle_sentinel_bottom.
Qed.

Lemma sentinel_bottom_nonempty decks : sentinel_bottom decks → decks ≠ [].
Proof. intros (above & -> & _). by destruct above. Qed.

(** Every state reached from the initial state keeps the sentinel deck at
    the bottom; in particular it has a topmost deck. *)
Lemma apply_mutations_sentinel_bottom ms s s' :
  apply_mutations ms s = Ok s' →
  sentinel_bottom (infection_deck s) → sentinel_bottom (infection_deck s').
Proof.
  revert s. induction ms as [|m ms IH]; intros s; simpl.
  - by intros [= <-].
  - intros (s1 & Hm & Hms)%bind_Ok Hinv.
    eauto using apply_mutation_sentinel_bottom.
Qed.

Lemma empty_state_sentinel_bottom : sentinel_bottom (infection_deck empty_state).
Proof. exists []. split; [done|]. constructor. Qed.

(** A state reached from the initial state has a topmost deck, so a
    [draw] on it does not raise. *)
Lemma reachable_has_top_deck ms s :
  apply_mutations ms empty_state = Ok s → infection_deck s ≠ [].
Proof.
  intros Hrun. apply sentinel_bottom_nonempty.
  eauto using apply_mutations_sentinel_bottom, empty_state_sentinel_bottom.
Qed.

(** * The properties of the specification *)

(** ** C1: [draw] succeeds on a state that has a topmost deck *)

(** C1, as the specification states it, fails: on a state whose
    [infection_deck] is the empty sequence, [self.infection_deck[0]]
    raises before anything is changed. *)
Lemma draw_no_decks_raises :
  let s := {| infection_deck := []; discard_pile := []; card_to_color := ∅ |} in
  draw "atlanta" s = Raise IndexError ∧ ¬ ∃ s', draw "atlanta" s = Ok s'.
Proof. split; [reflexivity|]. by intros (s' & Hdraw). Qed.

(** C1 (amended): for every state whose [infection_deck] is not empty and
    every card [c], [draw c] succeeds; the new discard pile is the old one
    with [c] appended, sorted again, whether or not [c] was in the topmost
    deck. *)
Theorem draw_succeeds (s : Decks) (c : string) :
  infection_deck s ≠ [] →
  ∃ s', draw c s = Ok s' ∧
        discard_pile s' = sort (discard_pile s ++ [c]) ∧
        discard_pile s' ≡ₚ discard_pile s ++ [c] ∧
        sorted (discard_pile s').
Proof.
  intros Hne. destruct (infection_deck s) as [|top rest] eqn:Hdecks; [done|].
  destruct (draw_cons c _ _ _ Hdecks) as (inf & Heq & _).
  eexists. split; [exact Heq|]. simpl.
  split_and!; [done|apply sort_Permutation|apply sort_sorted].
Qed.

Lemma draw_succeeds_witness :
  ∃ s', draw "atlanta" empty_state = Ok s' ∧
        discard_pile s' = sort (discard_pile empty_state ++ ["atlanta"]) ∧
        discard_pile s' ≡ₚ discard_pile empty_state ++ ["atlanta"] ∧
        sorted (discard_pile s').
Proof. apply (draw_succeeds empty_state "atlanta"). simpl. discriminate. Defined.

(** ** C2: the epidemic scenario *)

(** C2, as the specification states it, fails: the sentinel deck holds no
    card, so the draw does not remove it. *)
Lemma epidemic_draw_keeps_sentinel :
  ¬ ∃ s', draw "epidemic" empty_state = Ok s' ∧
          discard_pile s' = ["epidemic"] ∧ infection_deck s' = [].
Proof. intros (s' & [= <-] & _ & Hdecks). discriminate Hdecks. Qed.

(** C2 (amended): from the initial state, [draw "epidemic"] gives the
    discard pile [["epidemic"]] and leaves the decks at [[[]]]; then
    [reshuffle_discard] gives the decks [[["epidemic"]; []]] and an empty
    discard pile. *)
Theorem epidemic_scenario :
  draw "epidemic" empty_state
  = Ok {| infection_deck := [[]];
          discard_pile := ["epidemic"];
          card_to_color := ∅ |} ∧
  reshuffle_discard {| infection_deck := [[]];
                       discard_pile := ["epidemic"];
                       card_to_color := ∅ |}
  = {| infection_deck := [["epidemic"]; []];
       discard_pile := [];
       card_to_color := ∅ |}.
Proof. split; reflexivity. Qed.

(** ** C3: empty decks *)

(** C3, as the specification states it, fails: after a draw from the
    initial state the empty deck is still there, and a reshuffle then
    gives a sequence that holds an empty deck and is not [[[]]]. *)
Lemma sentinel_outlives_draw_and_reshuffle :
  ∃ s s',
    apply_mutation (Draw "atlanta") empty_state = Ok s ∧
    apply_mutation ReshuffleDiscard s = Ok s' ∧
    [] ∈ infection_deck s ∧
    ¬ (no_empty_deck (infection_deck s') ∨ infection_deck s' = [[]]).
Proof.
  eexists _, _. split_and!; [reflexivity..| |].
  - simpl. apply list_elem_of_here.
  - simpl. intros [Hall|Heq]; [|discriminate Heq].
    apply Forall_cons in Hall as [_ Hall].
    by apply Forall_cons in Hall as [Hnil _].
Qed.

(** C3 (amended): every mutation that returns preserves each of two
    properties of [infection_deck]: that no deck is empty, and that the
    sequence ends with the empty sentinel deck with no empty deck above
    it. The sentinel of the initial state is never removed; a deck whose
    last card is drawn is removed. *)
Theorem mutation_keeps_decks_shape (m : mutation) (s s' : Decks) :
  apply_mutation m s = Ok s' →
  (no_empty_deck (infection_deck s) → no_empty_deck (infection_deck s')) ∧
  (sentinel_bottom (infection_deck s) → sentinel_bottom (infection_deck s')) ∧
  (∀ c rest, m = Draw c → infection_deck s = [c] :: rest →
             infection_deck s' = rest).
Proof.
  intros Happ. split_and!.
  - by apply apply_mutation_no_empty_deck with m.
  - by apply apply_mutation_sentinel_bottom with m.
  - intros c rest -> Hdecks. simpl in Happ.
    destruct (draw_cons c _ _ _ Hdecks) as (inf & Heq & Hcases).
    rewrite Heq in Happ. injection Happ as <-. simpl.
    destruct Hcases as [[Hnin _]|(_ & top' & Hrem & [[_ ->]|[Hne _]])].
    + exfalso. apply Hnin, list_elem_of_here.
    + done.
    + simpl in Hrem. rewrite decide_True in Hrem by done. by injection Hrem as <-.
Qed.

Lemma mutation_keeps_decks_shape_witness :
  (no_empty_deck [["atlanta"]; []] → no_empty_deck [[]]) ∧
  (sentinel_bottom [["atlanta"]; []] → sentinel_bottom [[]]) ∧
  (∀ c rest, Draw "atlanta" = Draw c →
             [["atlanta"]; []] = [c] :: rest → [[]] = rest).
Proof.
  apply (mutation_keeps_decks_shape (Draw "atlanta")
           {| infection_deck := [["atlanta"]; []]; discard_pile := [];
              card_to_color := ∅ |}
           {| infection_deck := [[]]; discard_pile := ["atlanta"];
              card_to_color := ∅ |}).
  reflexivity.
Defined.

(** ** C4: the discard pile after a draw, and its order *)

(** C4: after [draw c] the card [c] occurs in the discard pile once more
    than before and the pile is sorted ascending; and every mutation
    leaves a sorted discard pile sorted. *)
Theorem discard_pile_count_sorted (m : mutation) (s s' : Decks) :
  apply_mutation m s = Ok s' →
  (∀ c, m = Draw c →
        count c (discard_pile s') = S (count c (discard_pile s)) ∧
        sorted (discard_pile s')) ∧
  (sorted (discard_pile s) → sorted (discard_pile s')).
Proof.
  intros Happ. split.
  - intros c ->. simpl in Happ. rewrite (draw_Ok_discard _ _ _ Happ).
    split; [|apply sort_sorted].
    rewrite (count_Permutation _ _ _ (sort_Permutation _)), count_app.
    rewrite count_cons, decide_True by done. unfold count at 2. simpl. lia.
  - intros Hsorted. destruct m as [c| |c|c color|c]; simpl in Happ.
    + rewrite (draw_Ok_discard _ _ _ Happ). apply sort_sorted.
    + injection Happ as <-. unfold reshuffle_discard.
      destruct (decide (0 < length (discard_pile s))); [constructor|done].
    + destruct (remove_discard_Ok c s) as (d & Heq & Hcases).
      rewrite Heq in Happ. injection Happ as <-. simpl.
      destruct Hcases as [[_ ->]|[_ Hrem]]; [done|].
      by apply list_remove_sorted with c (discard_pile s).
    + by injection Happ as <-.
    + by apply unmark_card_Ok_inv in Happ as [_ ->].
Qed.

Lemma discard_pile_count_sorted_witness :
  (∀ c, Draw "atlanta" = Draw c →
        count c ["atlanta"; "atlanta"; "cairo"] = S (count c ["atlanta"; "cairo"]) ∧
        sorted ["atlanta"; "atlanta"; "cairo"]) ∧
  (sorted ["atlanta"; "cairo"] → sorted ["atlanta"; "atlanta"; "cairo"]).
Proof.
  apply (discard_pile_count_sorted (Draw "atlanta")
           {| infection_deck := [["atlanta"; "lima"]];
              discard_pile := ["atlanta"; "cairo"];
              card_to_color := ∅ |}
           {| infection_deck := [["lima"]];
              discard_pile := ["atlanta"; "atlanta"; "cairo"];
              card_to_color := ∅ |}).
  reflexivity.
Defined.

(** ** C7: removing a colour that is not there *)

(** C7: [unmark_card c] raises [KeyError] exactly when [c] has no colour,
    and otherwise deletes the entry; marking "atlanta" and unmarking it
    succeeds and leaves it without colour, and unmarking it once more
    raises [KeyError]. *)
Theorem unmark_card_KeyError (s : Decks) (c : string) :
  (unmark_card c s = Raise (KeyError c) ↔ card_to_color s !! c = None) ∧
  ((∃ e, unmark_card c s = Raise e) ↔ card_to_color s !! c = None) ∧
  ((∃ s', unmark_card c s = Ok s' ∧
          card_to_color s' = delete c (card_to_color s)) ↔
   is_Some (card_to_color s !! c)) ∧
  (∃ s1, unmark_card "atlanta" (mark_card "atlanta" "red" s) = Ok s1 ∧
         card_to_color s1 !! "atlanta" = None ∧
         unmark_card "atlanta" s1 = Raise (KeyError "atlanta")).
Proof.
  split_and!.
  - unfold unmark_card. by destruct (card_to_color s !! c).
  - unfold unmark_card. destruct (card_to_color s !! c).
    + split; [by intros [e ?]|done].
    + split; [done|eauto].
  - unfold unmark_card. destruct (card_to_color s !! c).
    + split; [eauto|]. intros _. eexists. by split.
    + split; [by intros (s' & ? & _)|by intros [? ?]].
  - unfold unmark_card at 1. simpl. rewrite lookup_insert_eq.
    eexists. split; [done|]. simpl. split; [apply lookup_delete_eq|].
    unfold unmark_card. simpl. by rewrite lookup_delete_eq.
Qed.

(** ** C8: reshuffling twice *)

(** C8: with a non-empty discard pile [reshuffle_discard] puts the whole
    pile, in its order, as a new first deck and empties the pile; with an
    empty pile it changes nothing; so a second call in a row has no
    effect. *)
Theorem reshuffle_discard_idempotent (s : Decks) :
  reshuffle_discard (reshuffle_discard s) = reshuffle_discard s ∧
  (discard_pile s ≠ [] →
   reshuffle_discard s = {| infection_deck := discard_pile s :: infection_deck s;
                            discard_pile := [];
                            card_to_color := card_to_color s |}) ∧
  (discard_pile s = [] → reshuffle_discard s = s).
Proof.
  split_and!.
  - unfold reshuffle_discard.
    destruct (decide (0 < length (discard_pile s))) as [Hlen|Hlen].
    + reflexivity.
    + by rewrite decide_False.
  - intros Hne. unfold reshuffle_discard. rewrite decide_True; [done|].
    destruct (discard_pile s); [done|simpl; lia].
  - intros Hnil. unfold reshuffle_discard. rewrite Hnil. reflexivity.
Qed.

Lemma reshuffle_discard_idempotent_witness :
  let s := {| infection_deck := [[]]; discard_pile := ["atlanta"; "cairo"];
              card_to_color := ∅ |} in
  reshuffle_discard (reshuffle_discard s)
  = {| infection_deck := [["atlanta"; "cairo"]; []]; discard_pile := [];
       card_to_color := ∅ |}.
Proof.
  intros s.
  destruct (reshuffle_discard_idempotent s) as (Hidem & Hfull & _).
  rewrite Hidem. apply Hfull. simpl. discriminate.
Defined.

(** ** C9: a draw that empties the topmost deck *)

(** C9: when the topmost deck is [[c]] (equivalently, when removing [c]
    from it leaves nothing), [draw c] succeeds, the sequence of decks
    loses exactly its first element, and the deck that was at index 1 is
    the new topmost deck. *)
Theorem draw_pops_emptied_deck (s : Decks) (c : string) (top : list string)
    (rest : list (list string)) :
  infection_deck s = top :: rest →
  top = [c] ∨ list_remove c top = Ok [] →
  ∃ s', draw c s = Ok s' ∧
        infection_deck s' = rest ∧
        length (infection_deck s') + 1 = length (infection_deck s) ∧
        infection_deck s' !! 0 = infection_deck s !! 1.
Proof.
  intros Hdecks Htop.
  assert (top = [c]) as -> by (destruct Htop; [done|by apply list_remove_nil]).
  destruct (draw_cons c _ _ _ Hdecks) as (inf & Heq & Hcases).
  eexists. split; [exact Heq|]. simpl.
  assert (inf = rest) as ->.
  { destruct Hcases as [[Hnin _]|(_ & top' & Hrem & [[_ ->]|[Hne _]])].
    - exfalso. apply Hnin, list_elem_of_here.
    - done.
    - simpl in Hrem. rewrite decide_True in Hrem by done. by injection Hrem as <-. }
  rewrite Hdecks. simpl. split_and!; [done|lia|done].
Qed.

Lemma draw_pops_emptied_deck_witness :
  ∃ s', draw "atlanta" {| infection_deck := [["atlanta"]; ["cairo"; "lima"]];
                          discard_pile := [];
                          card_to_color := ∅ |} = Ok s' ∧
        infection_deck s' = [["cairo"; "lima"]] ∧
        length (infection_deck s') + 1 = 2 ∧
        infection_deck s' !! 0 = Some ["cairo"; "lima"].
Proof.
  apply (draw_pops_emptied_deck
           {| infection_deck := [["atlanta"]; ["cairo"; "lima"]];
              discard_pile := []; card_to_color := ∅ |}
           "atlanta" ["atlanta"] [["cairo"; "lima"]]).
  - reflexivity.
  - left. reflexivity.
Defined.

(** ** C10: what the mutations leave alone *)

(** C10: on a state with at least one deck, [draw c] succeeds, keeps the
    colours, and keeps the decks below the topmost one as they are, in
    their order; [remove_discard], [mark_card] and [unmark_card] keep
    [infection_deck], and the latter two keep [discard_pile] too. *)
Theorem mutations_frame (s : Decks) (c : string) :
  (infection_deck s ≠ [] →
   ∃ s' top rest,
     draw c s = Ok s' ∧ card_to_color s' = card_to_color s ∧
     infection_deck s = top :: rest ∧
     (infection_deck s' = rest ∨ ∃ top', infection_deck s' = top' :: rest)) ∧
  (∃ s', remove_discard c s = Ok s' ∧
         infection_deck s' = infection_deck s ∧
         card_to_color s' = card_to_color s) ∧
  (∀ color, infection_deck (mark_card c color s) = infection_deck s ∧
            discard_pile (mark_card c color s) = discard_pile s) ∧
  (∀ s', unmark_card c s = Ok s' →
         infection_deck s' = infection_deck s ∧
         discard_pile s' = discard_pile s).
Proof.
  split_and!.
  - intros Hne. destruct (infection_deck s) as [|top rest] eqn:Hdecks; [done|].
    destruct (draw_cons c _ _ _ Hdecks) as (inf & Heq & Hcases).
    eexists _, top, rest. split; [exact Heq|]. simpl. split_and!; [done..|].
    destruct Hcases as [[_ ->]|(_ & top' & _ & [[_ ->]|[_ ->]])]; eauto.
  - destruct (remove_discard_Ok c s) as (d & Heq & _).
    eexists. split; [exact Heq|]. done.
  - done.
  - by intros s' [_ ->]%unmark_card_Ok_inv.
Qed.

Lemma mutations_frame_witness :
  ∃ s' top rest,
    draw "atlanta" empty_state = Ok s' ∧
    card_to_color s' = card_to_color empty_state ∧
    infection_deck empty_state = top :: rest ∧
    (infection_deck s' = rest ∨ ∃ top', infection_deck s' = top' :: rest).
Proof.
  apply (proj1 (mutations_frame empty_state "atlanta")). simpl. discriminate.
Defined.

(** ** C6: a snapshot that is saved and loaded again *)

Lemma cards_of_json_of_cards cards : cards_of_json (json_of_cards cards) = Some cards.
Proof. simpl. by apply mapM_fmap_Some. Qed.

Lemma decks_of_json_of_decks decks : decks_of_json (json_of_decks decks) = Some decks.
Proof. simpl. apply mapM_fmap_Some, cards_of_json_of_cards. Qed.

Lemma colors_of_json_of_colors colors :
  colors_of_json (json_of_colors colors) = Some colors.
Proof.
  simpl. rewrite decide_True.
  - f_equal. apply map_eq. intros k. rewrite lookup_omap, lookup_fmap.
    by destruct (colors !! k).
  - intros k v. rewrite lookup_fmap. destruct (colors !! k); [|done].
    intros [= <-]. simpl. eauto.
Qed.

(** The three fields of the object that [save] writes. *)
Lemma snapshot_lookup (infection discard colors : json) :
  let d : gmap string json :=
    <["infection" := infection]>
      (<["discard" := discard]> (<["card_to_color" := colors]> ∅)) in
  d !! "infection" = Some infection ∧
  d !! "discard" = Some discard ∧
  d !! "card_to_color" = Some colors.
Proof. intros d. unfold d. split_and!; by simplify_map_eq. Qed.

Section PersistenceFacts.
Context {text : Type}.
Variable json_dump : json → text.
Variable json_load : text → option json.

(** [json.load] reads back what [json.dump] wrote. *)
Hypothesis json_load_dump : ∀ j, json_load (json_dump j) = Some j.

(** A missing file is read as the initial state. *)
Lemma load_missing (file_name : string) (fs : gmap string text) :
  fs !! file_name = None → load json_load file_name fs = Ok empty_state.
Proof. intros Hnone. unfold load. rewrite Hnone. reflexivity. Qed.

(** C6: [save] to any file followed by [load] of that file gives back
    the state: the decks and their cards in order, the discard pile in
    order, and the same colour of every card. *)
Theorem save_load_roundtrip (fs : gmap string text) (s : Decks) (file_name : string) :
  load json_load file_name (save json_dump s file_name fs) = Ok s.
Proof.
  unfold load, save. rewrite lookup_insert_eq, json_load_dump. simpl.
  destruct (snapshot_lookup (json_of_decks (infection_deck s))
              (json_of_cards (discard_pile s))
              (json_of_colors (card_to_color s))) as (-> & -> & ->).
  simpl default.
  rewrite decks_of_json_of_decks, cards_of_json_of_cards,
    colors_of_json_of_colors.
  simpl. by destruct s.
Qed.
End PersistenceFacts.

Lemma save_load_roundtrip_witness :
  let s := {| infection_deck := [["atlanta"; "cairo"]; []];
              discard_pile := ["lima"];
              card_to_color := {[ "atlanta" := "red" ]} |} in
  load Some "state.json" (save id s "state.json" ∅) = Ok s.
Proof. intros s. apply (save_load_roundtrip id Some). reflexivity. Defined.

(** ** C5: the grouped summary *)

(** *** The order of card identifiers *)

Lemma string_compare_refl (s : string) : String.compare s s = Eq.
Proof.
  pose proof (String.compare_antisym s s) as Hanti.
  destruct (String.compare s s); [done|discriminate..].
Qed.

Lemma string_ltb_le (s1 s2 : string) :
  String.ltb s1 s2 = true ↔ String.le s1 s2 ∧ s1 ≠ s2.
Proof.
  unfold String.le, String.leb, String.ltb.
  destruct (String.compare s1 s2) eqn:Hcmp; simpl.
  - apply String.compare_eq_iff in Hcmp as ->.
    split; [done|]. by intros [_ Hne].
  - split; [|done]. intros _. split; [done|]. intros ->.
    by rewrite string_compare_refl in Hcmp.
  - split; [done|]. by intros [Hle _].
Qed.

Lemma string_ltb_false_le (s1 s2 : string) :
  String.ltb s2 s1 = false ↔ String.le s1 s2.
Proof.
  unfold String.le, String.leb, String.ltb.
  rewrite (String.compare_antisym s1 s2).
  destruct (String.compare s2 s1); simpl; split; done.
Qed.

(** *** The order that drives the sort of the tuples *)

Lemma key_le_spec (a b : nat * string) :
  key_le a b ↔ b.1 < a.1 ∨ (a.1 = b.1 ∧ String.le a.2 b.2).
Proof.
  unfold key_le, key_lt, compare.
  destruct (decide (a.1 < b.1)) as [Hlt|Hnlt].
  { split; [intros Hn; exfalso; apply Hn; lia|]. intros [?|[? _]]; lia. }
  destruct (decide (b.1 < a.1)) as [Hgt|Hngt].
  { split; [by left|]. intros _. lia. }
  assert (a.1 = b.1) as Heq by lia.
  destruct (String.ltb a.2 b.2) eqn:Hab.
  { apply string_ltb_le in Hab as [Hle _]. split; [by right|]. intros _. lia. }
  destruct (String.ltb b.2 a.2) eqn:Hba.
  - split; [intros Hn; exfalso; apply Hn; lia|].
    intros [?|[_ Hle]]; [lia|].
    apply string_ltb_false_le in Hle. congruence.
  - apply string_ltb_false_le in Hba. split; [by right|]. intros _. lia.
Qed.

Global Instance key_le_total : Total key_le.
Proof.
  intros a b. rewrite !key_le_spec.
  destruct (decide (a.1 < b.1)); [right; left; lia|].
  destruct (decide (b.1 < a.1)); [left; left; lia|].
  destruct (total String.le a.2 b.2);
    [left|right]; right; (split; [lia|done]).
Qed.

Global Instance key_le_trans : Transitive key_le.
Proof.
  intros a b c. rewrite !key_le_spec.
  intros [?|[? Hab]] [?|[? Hbc]]; [left; lia..|].
  right. split; [lia|]. by transitivity b.2.
Qed.

Lemma key_le_before (a b : nat * string) : key_le a b → a.2 ≠ b.2 → before a b.
Proof.
  rewrite key_le_spec. unfold before. intros [?|[? Hle]] Hne; [by left|].
  right. split; [done|]. by apply string_ltb_le.
Qed.

(** *** The dictionary of counts *)

Lemma dict_get_fresh (d : counts) (k : string) (dflt : nat) :
  k ∉ d.*1 → dict_get d k dflt = dflt.
Proof.
  induction d as [|[k' v'] d IH]; simpl; [done|].
  rewrite not_elem_of_cons. intros [Hne Hnin].
  rewrite decide_False by done. auto.
Qed.

Lemma dict_get_elem_of (d : counts) (k : string) (v dflt : nat) :
  NoDup d.*1 → (k, v) ∈ d → dict_get d k dflt = v.
Proof.
  induction d as [|[k' v'] d IH]; simpl; intros Hnd Hin.
  { by apply elem_of_nil in Hin. }
  apply NoDup_cons in Hnd as [Hfresh Hnd].
  apply elem_of_cons in Hin as [[= <- <-]|Hin].
  - by rewrite decide_True.
  - rewrite decide_False; [auto|].
    intros ->. apply Hfresh. apply list_elem_of_fmap. by exists (k, v).
Qed.

Lemma dict_set_keys (d : counts) (k : string) (v : nat) :
  (dict_set d k v).*1 = if decide (k ∈ d.*1) then d.*1 else d.*1 ++ [k].
Proof.
  induction d as [|[k' v'] d IH].
  { simpl. destruct (decide (k ∈ [])) as [Hin|_]; [|done].
    by apply elem_of_nil in Hin. }
  simpl dict_set. destruct (decide (k' = k)) as [->|Hne].
  - rewrite decide_True; [done|]. apply list_elem_of_here.
  - rewrite fmap_cons, IH. simpl.
    destruct (decide (k ∈ d.*1)) as [Hin|Hnin].
    + rewrite decide_True; [done|]. by apply list_elem_of_further.
    + rewrite decide_False; [done|]. rewrite not_elem_of_cons. auto.
Qed.

Lemma dict_set_NoDup (d : counts) (k : string) (v : nat) :
  NoDup d.*1 → NoDup (dict_set d k v).*1.
Proof.
  intros Hnd. rewrite dict_set_keys.
  destruct (decide (k ∈ d.*1)) as [Hin|Hnin]; [done|].
  apply NoDup_app. split_and!; [done| |apply NoDup_singleton].
  intros x Hx ->%list_elem_of_singleton. done.
Qed.

Lemma dict_set_elem_of (d : counts) (k k' : string) (v v' : nat) :
  NoDup d.*1 →
  (k', v') ∈ dict_set d k v ↔ (k' = k ∧ v' = v) ∨ (k' ≠ k ∧ (k', v') ∈ d).
Proof.
  induction d as [|[k0 v0] d IH]; intros Hnd.
  - simpl. rewrite list_elem_of_singleton. split.
    + intros [= -> ->]. by left.
    + intros [[-> ->]|[_ Hin]]; [done|]. by apply elem_of_nil in Hin.
  - apply NoDup_cons in Hnd as [Hfresh Hnd]. simpl dict_set.
    destruct (decide (k0 = k)) as [->|Hne].
    + rewrite !elem_of_cons. split.
      * intros [[= -> ->]|Hin]; [by left|].
        right. split; [|by right].
        intros ->. apply Hfresh, list_elem_of_fmap. by exists (k, v').
      * intros [[-> ->]|[Hne [[= -> ->]|Hin]]]; [by left|done|by right].
    + rewrite !elem_of_cons, (IH Hnd). split.
      * intros [[= -> ->]|[[-> ->]|[Hne' Hin]]].
        -- right. split; [done|by left].
        -- by left.
        -- right. split; [done|by right].
      * intros [[-> ->]|[Hne' [[= -> ->]|Hin]]].
        -- right. by left.
        -- by left.
        -- right. right. done.
Qed.

(** After the loop has read [lis], the dictionary holds every card of
    [lis] once, with the number of its occurrences. *)
Lemma count_card_loop (lis : list string) :
  let d := foldl count_card [] lis in
  NoDup d.*1 ∧ ∀ k v, (k, v) ∈ d ↔ k ∈ lis ∧ v = count k lis.
Proof.
  induction lis as [|x lis IH] using rev_ind; simpl.
  { split; [constructor|]. intros k v. split.
    - by intros Hin%elem_of_nil.
    - by intros [Hin%elem_of_nil _]. }
  rewrite foldl_snoc. destruct IH as [Hnd Hmem]. set (d := foldl count_card [] lis) in *.
  split; [by apply dict_set_NoDup|].
  assert (dict_get d x 0 = count x lis) as Hget.
  { destruct (decide (x ∈ lis)) as [Hin|Hnin].
    - apply dict_get_elem_of; [done|]. by apply Hmem.
    - rewrite dict_get_fresh.
      + symmetry. destruct (count x lis) eqn:Hc; [done|].
        exfalso. apply Hnin, count_pos. lia.
      + intros ([k v] & -> & Hin)%list_elem_of_fmap. simpl in Hnin.
        by apply Hmem in Hin as [Hin _]. }
  intros k v. unfold count_card. rewrite dict_set_elem_of by done.
  rewrite Hget, elem_of_app, list_elem_of_singleton, count_app, count_cons.
  rewrite Hmem. change (count k []) with 0.
  destruct (decide (x = k)) as [->|Hne]; split.
  - intros [[_ ->]|[Hne _]]; [|done]. split; [by right|lia].
  - intros [_ ->]. left. split; [done|lia].
  - intros [[-> _]|[_ [Hin ->]]]; [done|]. split; [by left|lia].
  - intros [[Hin | ->] ->]; [|done]. right. split; [done|]. split; [done|lia].
Qed.

(** *** The loop of [_print_formatting] *)

Section PrintingFacts.
Variable colored : string → string → string.
Variable self : Decks.

Lemma fmt_loop_card_counts (st : fmt_state) (lis : list string) :
  card_counts (foldl (fmt_step colored self) st lis)
  = foldl count_card (card_counts st) lis.
Proof.
  revert st. induction lis as [|x lis IH]; intros st; simpl; [done|].
  by rewrite IH.
Qed.

Lemma fmt_loop_card_tuples (lis : list string) :
  card_tuples (fmt_loop colored self lis)
  = sorted_tuples (foldl count_card [] lis).
Proof.
  unfold fmt_loop. destruct lis as [|x lis _] using rev_ind; [done|].
  rewrite !foldl_snoc. simpl. by rewrite fmt_loop_card_counts.
Qed.

(** The lines returned are the rendering of the tuples, one by one. *)
Lemma fmt_loop_reprs (lis : list string) :
  _print_formatting colored self lis
  = (λ t, "x" +:+ pretty t.1 +:+ " " +:+ _format_name colored self t.2)
      <$> card_tuples (fmt_loop colored self lis).
Proof.
  unfold _print_formatting, fmt_loop.
  destruct lis as [|x lis _] using rev_ind; [done|].
  by rewrite !foldl_snoc.
Qed.
End PrintingFacts.

Lemma summary_sorted_tuples (lis : list string) :
  summary lis = sorted_tuples (foldl count_card [] lis).
Proof. apply fmt_loop_card_tuples. Qed.

(** The rendering shows the tuples of the summary, whatever the colours. *)
Lemma _print_formatting_summary colored self (lis : list string) :
  _print_formatting colored self lis
  = (λ t, "x" +:+ pretty t.1 +:+ " " +:+ _format_name colored self t.2)
      <$> summary lis.
Proof.
  rewrite fmt_loop_reprs, summary_sorted_tuples. by rewrite fmt_loop_card_tuples.
Qed.

Lemma StronglySorted_distinct {A B : Type} (R R' : relation A) (f : A → B)
    (l : list A) :
  (∀ a b, R a b → f a ≠ f b → R' a b) →
  StronglySorted R l → NoDup (f <$> l) → StronglySorted R' l.
Proof.
  intros Hrel. induction 1 as [|a l Hsorted IH Hall]; intros Hnd; [constructor|].
  rewrite fmap_cons in Hnd. apply NoDup_cons in Hnd as [Hfresh Hnd].
  constructor; [auto|].
  apply Forall_forall. intros b Hb. apply Hrel.
  - by apply (proj1 (Forall_forall _ _) Hall).
  - intros Heq. apply Hfresh. rewrite Heq. apply list_elem_of_fmap. eauto.
Qed.

(** C5: the summary is a total function of the card sequence alone (the
    tuples computed by [_print_formatting] do not depend on the colours
    or on the state); every card of the sequence appears in it exactly
    once, with the number of its occurrences; the tuples are ordered by
    descending count, ties by ascending card identifier; and the summary
    of [["b";"a";"b";"c";"a";"a"]] is [[(3,"a"); (2,"b"); (1,"c")]]. *)
Theorem summary_grouped_sorted (lis : list string) :
  (∀ colored self, card_tuples (fmt_loop colored self lis) = summary lis) ∧
  NoDup (summary lis).*2 ∧
  (∀ n c, (n, c) ∈ summary lis ↔ c ∈ lis ∧ n = count c lis) ∧
  StronglySorted before (summary lis) ∧
  summary ["b"; "a"; "b"; "c"; "a"; "a"] = [(3, "a"); (2, "b"); (1, "c")].
Proof.
  rewrite summary_sorted_tuples. unfold sorted_tuples.
  destruct (count_card_loop lis) as [Hnd Hmem]. simpl in Hnd, Hmem.
  set (d := foldl count_card [] lis) in *.
  assert (NoDup (merge_sort key_le ((λ kv, (kv.2, kv.1)) <$> d)).*2) as Hnames.
  { rewrite merge_sort_Permutation, <- list_fmap_compose. exact Hnd. }
  split_and!.
  - intros colored self. apply fmt_loop_card_tuples.
  - done.
  - intros n c. rewrite merge_sort_Permutation, <- Hmem, list_elem_of_fmap.
    split.
    + by intros ([k v] & [= -> ->] & Hin).
    + intros Hin. by exists (c, n).
  - apply (StronglySorted_distinct key_le before snd).
    + intros a b. apply key_le_before.
    + apply (StronglySorted_merge_sort key_le).
    + done.
  - reflexivity.
Qed.

(** * Further properties of the code *)

(** ** The discard pile *)

Lemma sort_Permutation_eq (l1 l2 : list string) : l1 ≡ₚ l2 → sort l1 = sort l2.
Proof.
  intros Hp. apply (StronglySorted_unique String.le).
  - apply sort_sorted.
  - apply sort_sorted.
  - by rewrite !sort_Permutation.
Qed.

Lemma sorted_sort_id (l : list string) : sorted l → sort l = l.
Proof.
  intros Hs. apply (StronglySorted_unique String.le);
    [apply sort_sorted|done|apply sort_Permutation].
Qed.

Lemma count_list_remove c x l l' :
  list_remove x l = Ok l' →
  count c l' = count c l - (if decide (c = x) then 1 else 0).
Proof.
  intros (l1 & l2 & -> & -> & _)%list_remove_Ok_inv.
  rewrite !count_app, count_cons.
  destruct (decide (x = c)) as [->|Hne].
  - rewrite decide_True by done. lia.
  - rewrite decide_False by done. lia.
Qed.

(** [remove_discard] never raises. It takes one copy of the card out of
    the discard pile when there is one, and changes nothing else; when
    the card is not in the pile the state is returned as it is. *)
Theorem remove_discard_one_copy (c : string) (s : Decks) :
  ∃ s', remove_discard c s = Ok s' ∧
        infection_deck s' = infection_deck s ∧
        card_to_color s' = card_to_color s ∧
        (∀ c', count c' (discard_pile s')
               = count c' (discard_pile s) - (if decide (c' = c) then 1 else 0)) ∧
        ((c ∉ discard_pile s) → s' = s).
Proof.
  destruct (remove_discard_Ok c s) as (d & Heq & Hcases).
  eexists. split; [exact Heq|]. simpl. split_and!; [done..| |].
  - intros c'. destruct Hcases as [[Hnin ->]|[_ Hrem]].
    + destruct (decide (c' = c)) as [->|]; [|lia].
      destruct (count c (discard_pile s)) eqn:Hc; [done|].
      exfalso. apply Hnin, count_pos. lia.
    + by apply count_list_remove.
  - intros Hnin. destruct Hcases as [[_ ->]|[Hin _]]; [by destruct s|done].
Qed.

(** Taking back a card that was just drawn: on a sorted discard pile,
    [draw c] followed by [remove_discard c] leaves the pile as it was
    before the draw. *)
Theorem draw_then_remove_discard (c : string) (s s1 : Decks) :
  sorted (discard_pile s) →
  draw c s = Ok s1 →
  ∃ s2, remove_discard c s1 = Ok s2 ∧
        discard_pile s2 = discard_pile s ∧
        infection_deck s2 = infection_deck s1.
Proof.
  intros Hsorted Hdraw.
  pose proof (draw_Ok_discard _ _ _ Hdraw) as Hpile.
  destruct (remove_discard_Ok c s1) as (d & Heq & Hcases).
  eexists. split; [exact Heq|]. simpl. split; [|done].
  destruct Hcases as [[Hnin _]|[Hin Hrem]].
  - exfalso. apply Hnin. rewrite Hpile, sort_Permutation, elem_of_app.
    right. apply list_elem_of_here.
  - apply (StronglySorted_unique String.le).
    + apply (list_remove_sorted c (discard_pile s1)); [|done].
      rewrite Hpile. apply sort_sorted.
    + done.
    + destruct (list_remove_elem_of _ _ Hin) as (d' & Hrem' & Hp).
      rewrite Hrem in Hrem'. injection Hrem' as <-.
      rewrite Hpile, sort_Permutation in Hp.
      apply (Permutation_cons_inv (a:=c)). rewrite <- Hp.
      by rewrite Permutation_app_comm.
Qed.

Lemma draw_then_remove_discard_witness :
  ∃ s2, remove_discard "cairo"
          {| infection_deck := [["lima"]];
             discard_pile := ["atlanta"; "cairo"; "cairo"];
             card_to_color := ∅ |} = Ok s2 ∧
        discard_pile s2 = ["atlanta"; "cairo"] ∧
        infection_deck s2 = [["lima"]].
Proof.
  apply (draw_then_remove_discard "cairo"
           {| infection_deck := [["cairo"; "lima"]];
              discard_pile := ["atlanta"; "cairo"];
              card_to_color := ∅ |}).
  - repeat constructor.
  - reflexivity.
Defined.

(** ** Cards are neither lost nor invented *)

Lemma Permutation_snoc_app (l1 l2 : list string) (c : string) :
  l1 ++ l2 ++ [c] ≡ₚ c :: l1 ++ l2.
Proof. rewrite (assoc_L (++)). apply Permutation_app_comm. Qed.



(** ** Drawing a whole deck *)

(** Drawing every card of a non-empty topmost deck, in any order. *)
Lemma draw_deck_cards (l top : list string) (rest : list (list string))
    (pile : list string) (colors : gmap string string) :
  l ≡ₚ top → top ≠ [] →
  apply_mutations (Draw <$> l)
    {| infection_deck := top :: rest; discard_pile := pile; card_to_color := colors |}
  = Ok {| infection_deck := rest;
          discard_pile := sort (pile ++ l);
          card_to_color := colors |}.
Proof.
  revert top pile. induction l as [|x l IH]; intros top pile Hp Hne.
  { apply Permutation_nil_l in Hp. by subst. }
  assert (x ∈ top) as Hin by (rewrite <- Hp; apply list_elem_of_here).
  destruct (list_remove_elem_of _ _ Hin) as (top' & Hrem & Hp').
  rewrite Hp' in Hp. apply Permutation_cons_inv in Hp.
  set (s := {| infection_deck := top :: rest; discard_pile := pile;
               card_to_color := colors |}).
  destruct (draw_cons x s top rest eq_refl) as (inf & Heq & Hcases).
  simpl. rewrite Heq. simpl.
  destruct Hcases as [[Hnin _]|(_ & top'' & Hrem' & Hinf)]; [done|].
  rewrite Hrem in Hrem'. injection Hrem' as <-.
  destruct Hinf as [[-> ->]|[Hne' ->]].
  - apply Permutation_nil_r in Hp. subst l. reflexivity.
  - rewrite (IH top' _ Hp Hne'). do 2 f_equal.
    apply sort_Permutation_eq. rewrite sort_Permutation.
    by rewrite <- (assoc_L (++)).
Qed.

(** Drawing all the cards of the topmost deck, in any order, succeeds,
    removes exactly that deck and puts its cards into the discard pile,
    which ends up sorted. *)
Theorem draw_whole_deck (l : list string) (s : Decks) (top : list string)
    (rest : list (list string)) :
  infection_deck s = top :: rest → top ≠ [] → l ≡ₚ top →
  apply_mutations (Draw <$> l) s
  = Ok {| infection_deck := rest;
          discard_pile := sort (discard_pile s ++ top);
          card_to_color := card_to_color s |}.
Proof.
  intros Hdecks Hne Hp. destruct s as [decks pile colors]. simpl in *. subst decks.
  rewrite (draw_deck_cards l top rest pile colors Hp Hne). do 2 f_equal.
  apply sort_Permutation_eq. by rewrite Hp.
Qed.

Lemma draw_whole_deck_witness :
  apply_mutations (Draw <$> ["lima"; "cairo"; "lima"])
    {| infection_deck := [["lima"; "lima"; "cairo"]; ["atlanta"]];
       discard_pile := ["bogota"];
       card_to_color := ∅ |}
  = Ok {| infection_deck := [["atlanta"]];
          discard_pile := sort (["bogota"] ++ ["lima"; "lima"; "cairo"]);
          card_to_color := ∅ |}.
Proof.
  apply (draw_whole_deck ["lima"; "cairo"; "lima"]
           {| infection_deck := [["lima"; "lima"; "cairo"]; ["atlanta"]];
              discard_pile := ["bogota"]; card_to_color := ∅ |}
           ["lima"; "lima"; "cairo"] [["atlanta"]]).
  - reflexivity.
  - discriminate.
  - apply Permutation_skip, Permutation_swap.
Defined.

(** A reshuffle undone by draws: after [reshuffle_discard] of a sorted,
    non-empty discard pile, drawing the cards of that pile in any order
    gives back the decks and the discard pile of before the reshuffle. *)
Theorem reshuffle_then_draw_all (l : list string) (s : Decks) :
  discard_pile s ≠ [] → sorted (discard_pile s) → l ≡ₚ discard_pile s →
  apply_mutations (Draw <$> l) (reshuffle_discard s) = Ok s.
Proof.
  intros Hne Hsorted Hp. unfold reshuffle_discard.
  rewrite decide_True by (destruct (discard_pile s); [done|simpl; lia]).
  rewrite (draw_deck_cards l (discard_pile s) _ [] _ Hp Hne). simpl.
  rewrite (sort_Permutation_eq l (discard_pile s) Hp), (sorted_sort_id _ Hsorted).
  by destruct s.
Qed.

Lemma reshuffle_then_draw_all_witness :
  let s := {| infection_deck := [["lima"]; []];
              discard_pile := ["atlanta"; "cairo"];
              card_to_color := ∅ |} in
  apply_mutations (Draw <$> ["cairo"; "atlanta"]) (reshuffle_discard s) = Ok s.
Proof.
  intros s. apply (reshuffle_then_draw_all ["cairo"; "atlanta"] s).
  - discriminate.
  - repeat constructor.
  - apply Permutation_swap.
Defined.

(** ** What a draw does to the topmost deck *)

(** [draw] looks at the topmost deck only. A card that is not in it is
    not taken from any deck, even when a lower deck holds it. A card that
    is in it, with other cards left, loses one copy there; the number of
    decks and the decks below stay. *)
Theorem draw_top_deck_only (c : string) (s : Decks) (top : list string)
    (rest : list (list string)) :
  infection_deck s = top :: rest →
  ∃ s', draw c s = Ok s' ∧
        ((c ∉ top) → infection_deck s' = top :: rest) ∧
        (c ∈ top → top ≠ [c] →
         ∃ top', infection_deck s' = top' :: rest ∧ top' ≠ [] ∧
                 ∀ c', count c' top'
                       = count c' top - (if decide (c' = c) then 1 else 0)).
Proof.
  intros Hdecks. destruct (draw_cons c _ _ _ Hdecks) as (inf & Heq & Hcases).
  eexists. split; [exact Heq|]. simpl. split.
  - intros Hnin. by destruct Hcases as [[_ ->]|(Hin & _)].
  - intros Hin Hne. destruct Hcases as [[Hnin _]|(_ & top' & Hrem & Hinf)]; [done|].
    destruct Hinf as [[-> _]|[Hne' ->]].
    + by apply list_remove_nil in Hrem.
    + exists top'. split_and!; [done..|].
      intros c'. by apply count_list_remove.
Qed.

Lemma draw_top_deck_only_witness :
  ∃ s', draw "lima" {| infection_deck := [["cairo"]; ["lima"]];
                       discard_pile := [];
                       card_to_color := ∅ |} = Ok s' ∧
        (("lima" ∉ ["cairo"]) → infection_deck s' = [["cairo"]; ["lima"]]) ∧
        ("lima" ∈ ["cairo"] → ["cairo"] ≠ ["lima"] →
         ∃ top', infection_deck s' = [top'; ["lima"]] ∧ top' ≠ [] ∧
                 ∀ c', count c' top'
                       = count c' ["cairo"] - (if decide (c' = "lima") then 1 else 0)).
Proof.
  apply (draw_top_deck_only "lima"
           {| infection_deck := [["cairo"]; ["lima"]]; discard_pile := [];
              card_to_color := ∅ |} ["cairo"] [["lima"]]).
  reflexivity.
Defined.

(** ** Sequences of mutations *)

Lemma apply_mutation_Ok_sentinel (m : mutation) (s : Decks) :
  sentinel_bottom (infection_deck s) →
  (∀ c, m ≠ UnmarkCard c) →
  ∃ s', apply_mutation m s = Ok s'.
Proof.
  intros Hinv Hm. destruct m as [c| |c|c color|c]; simpl; eauto.
  - destruct (infection_deck s) as [|top rest] eqn:Hdecks.
    + by destruct (sentinel_bottom_nonempty [] Hinv).
    + destruct (draw_cons c s top rest Hdecks) as (inf & Hdraw & _). eauto.
  - destruct (remove_discard_Ok c s) as (d & Heq & _). eauto.
  - by destruct (Hm c).
Qed.

(** On a state whose decks end with the empty sentinel deck, such as the
    initial state, a sequence of mutations without [unmark_card] never
    raises, and the sentinel is still at the bottom afterwards. *)
Theorem mutations_never_raise (ms : list mutation) (s : Decks) :
  sentinel_bottom (infection_deck s) →
  (∀ c, UnmarkCard c ∉ ms) →
  ∃ s', apply_mutations ms s = Ok s' ∧ sentinel_bottom (infection_deck s').
Proof.
  revert s. induction ms as [|m ms IH]; intros s Hinv Hms; simpl; [eauto|].
  destruct (apply_mutation_Ok_sentinel m s Hinv) as (s1 & Hm).
  { intros c ->. apply (Hms c), list_elem_of_here. }
  rewrite Hm. simpl. apply IH.
  - by apply (apply_mutation_sentinel_bottom m s).
  - intros c Hin. apply (Hms c). by apply list_elem_of_further.
Qed.

Lemma mutations_never_raise_witness :
  ∃ s', apply_mutations
          [Draw "atlanta"; ReshuffleDiscard; Draw "atlanta"; Draw "cairo";
           RemoveDiscard "lima"; MarkCard "cairo" "red"]
          empty_state = Ok s' ∧
        sentinel_bottom (infection_deck s').
Proof.
  apply (mutations_never_raise _ empty_state).
  - apply empty_state_sentinel_bottom.
  - intros c Hin. repeat (apply elem_of_cons in Hin as [Hin|Hin]; [discriminate Hin|]).
    by apply elem_of_nil in Hin.
Defined.

(** ** Colours *)


(** Marking a card that has no colour and unmarking it gives back the
    state; unmarking a card and marking it with the colour it had gives
    back the state too. *)
Theorem mark_unmark_inverse (c color : string) (s : Decks) :
  (card_to_color s !! c = None →
   unmark_card c (mark_card c color s) = Ok s) ∧
  (card_to_color s !! c = Some color →
   ∃ s1, unmark_card c s = Ok s1 ∧ mark_card c color s1 = s).
Proof.
  destruct s as [decks pile colors]. unfold unmark_card, mark_card. simpl. split.
  - intros Hnone. rewrite lookup_insert_eq. do 2 f_equal.
    rewrite delete_insert_eq. by apply delete_id.
  - intros Hsome. rewrite Hsome. eexists. split; [done|]. simpl. f_equal.
    rewrite insert_delete_eq. by apply insert_id.
Qed.

Lemma mark_unmark_inverse_witness :
  unmark_card "atlanta" (mark_card "atlanta" "red" empty_state) = Ok empty_state.
Proof. apply (proj1 (mark_unmark_inverse "atlanta" "red" empty_state)). reflexivity. Defined.

Lemma unmark_cards_Ok (l : list string) (s s' : Decks) :
  apply_mutations (UnmarkCard <$> l) s = Ok s' →
  NoDup l ∧
  (∀ c, c ∈ l → is_Some (card_to_color s !! c)) ∧
  (∀ c, card_to_color s' !! c = if decide (c ∈ l) then None else card_to_color s !! c).
Proof.
  revert s. induction l as [|x l IH]; intros s; simpl.
  - intros [= <-]. split_and!; [constructor| |done].
    intros c Hin. by apply elem_of_nil in Hin.
  - intros (s1 & Hun & Hrest)%bind_Ok.
    apply unmark_card_Ok_inv in Hun as [Hsome ->].
    destruct (IH _ Hrest) as (Hnd & Hall & Hlook). simpl in Hall, Hlook.
    split_and!.
    + constructor; [|done]. intros Hin. destruct (Hall x Hin) as [v Hv].
      by rewrite lookup_delete_eq in Hv.
    + intros c [->|Hin]%elem_of_cons; [done|].
      destruct (Hall c Hin) as [v Hv].
      destruct (decide (c = x)) as [->|Hne]; [done|].
      rewrite lookup_delete_ne in Hv by done. eauto.
    + intros c. rewrite Hlook.
      destruct (decide (c ∈ l)) as [Hin|Hnin].
      * rewrite decide_True; [done|]. by apply list_elem_of_further.
      * destruct (decide (c = x)) as [->|Hne].
        -- rewrite decide_True by apply list_elem_of_here. apply lookup_delete_eq.
        -- rewrite decide_False by (rewrite elem_of_cons; tauto).
           by apply lookup_delete_ne.
Qed.

(** ** The comparator *)

Lemma string_ltb_asym (s1 s2 : string) :
  String.ltb s1 s2 = true → String.ltb s2 s1 = false.
Proof.
  unfold String.ltb. rewrite (String.compare_antisym s1 s2).
  by destruct (String.compare s2 s1).
Qed.

Lemma string_ltb_total (s1 s2 : string) :
  String.ltb s1 s2 = false → String.ltb s2 s1 = false → s1 = s2.
Proof.
  unfold String.ltb. rewrite (String.compare_antisym s1 s2).
  destruct (String.compare s2 s1) eqn:Hcmp; simpl; try done.
  intros _ _. symmetry. by apply String.compare_eq_iff.
Qed.

Lemma string_ltb_trans (s1 s2 s3 : string) :
  String.ltb s1 s2 = true → String.ltb s2 s3 = true → String.ltb s1 s3 = true.
Proof.
  rewrite !string_ltb_le. intros [H12 Hne12] [H23 Hne23]. split.
  - by transitivity s2.
  - intros ->. apply Hne12. by apply (anti_symm String.le).
Qed.

Lemma compare_lt_before (a b : nat * string) : (compare a b < 0)%Z ↔ before a b.
Proof.
  unfold compare, before.
  destruct (decide (b.1 < a.1)); [split; [by left|lia]|].
  destruct (decide (a.1 < b.1)); [split; [lia|intros [?|[? _]]; lia]|].
  destruct (String.ltb b.2 a.2) eqn:Hba.
  - split; [lia|]. intros [?|[_ Hab]]; [lia|].
    apply string_ltb_asym in Hab. congruence.
  - destruct (String.ltb a.2 b.2) eqn:Hab.
    + split; [|lia]. intros _. right. split; [lia|done].
    + split; [lia|]. intros [?|[_ ?]]; [lia|done].
Qed.

(** [compare] is the comparator of a strict total order: swapping the
    arguments negates the result, the result is 0 only for equal tuples,
    and "less than" is transitive. *)
Theorem compare_order (a b c : nat * string) :
  compare a b = (- compare b a)%Z ∧
  (compare a b = 0%Z ↔ a = b) ∧
  ((compare a b < 0)%Z → (compare b c < 0)%Z → (compare a c < 0)%Z).
Proof.
  split_and!.
  - unfold compare.
    destruct (decide (b.1 < a.1)), (decide (a.1 < b.1)); try lia; try done.
    destruct (String.ltb b.2 a.2) eqn:Hba, (String.ltb a.2 b.2) eqn:Hab; try done.
    apply string_ltb_asym in Hba. congruence.
  - split; [|intros <-].
    + unfold compare.
      destruct (decide (b.1 < a.1)); [done|].
      destruct (decide (a.1 < b.1)); [done|].
      destruct (String.ltb b.2 a.2) eqn:Hba; [done|].
      destruct (String.ltb a.2 b.2) eqn:Hab; [done|].
      intros _. destruct a as [n1 s1], b as [n2 s2]. simpl in *.
      f_equal; [lia|]. by apply string_ltb_total.
    + unfold compare. rewrite !decide_False by lia.
      assert (String.ltb a.2 a.2 = false) as ->; [|done].
      unfold String.ltb. by rewrite string_compare_refl.
  - rewrite !compare_lt_before. unfold before.
    intros [?|[? Hab]] [?|[? Hbc]]; [left; lia..|].
    right. split; [lia|]. by apply (string_ltb_trans _ b.2).
Qed.

(** ** What is printed *)

Lemma summary_elem_of (lis : list string) (n : nat) (c : string) :
  (n, c) ∈ summary lis ↔ c ∈ lis ∧ n = count c lis.
Proof.
  rewrite summary_sorted_tuples. unfold sorted_tuples.
  destruct (count_card_loop lis) as [_ Hmem]. simpl in Hmem.
  rewrite merge_sort_Permutation, <- Hmem, list_elem_of_fmap. split.
  - by intros ([k v] & [= -> ->] & Hin).
  - intros Hin. by exists (c, n).
Qed.

Lemma summary_names (lis : list string) : (summary lis).*2 ≡ₚ remove_dups lis.
Proof.
  apply NoDup_Permutation.
  - rewrite summary_sorted_tuples. unfold sorted_tuples.
    destruct (count_card_loop lis) as [Hnd _]. simpl in Hnd.
    rewrite merge_sort_Permutation, <- list_fmap_compose. exact Hnd.
  - apply NoDup_remove_dups.
  - intros c. rewrite elem_of_remove_dups, list_elem_of_fmap. split.
    + intros ([n c'] & -> & Hin). by apply summary_elem_of in Hin as [Hin _].
    + intros Hin. exists (count c lis, c). split; [done|].
      by apply summary_elem_of.
Qed.

Lemma count_card_sum (d : counts) (card : string) :
  sum_list (count_card d card).*2 = S (sum_list d.*2).
Proof.
  unfold count_card. induction d as [|[k v] d IH]; [done|].
  cbn [dict_set dict_get].
  destruct (decide (k = card)) as [->|Hne]; rewrite !fmap_cons;
    cbn [sum_list_with snd id]; [lia|].
  rewrite IH. lia.
Qed.

Lemma summary_length (lis : list string) :
  length (summary lis) = length (remove_dups lis).
Proof. by rewrite <- (length_fmap snd), summary_names. Qed.

Lemma _print_formatting_length colored self (lis : list string) :
  length (_print_formatting colored self lis) = length (remove_dups lis).
Proof. rewrite _print_formatting_summary, length_fmap. apply summary_length. Qed.

(** The counts of the summary add up to the length of the sequence, and
    the summary has one tuple per distinct card. *)
Theorem summary_counts_total (lis : list string) :
  sum_list (summary lis).*1 = length lis ∧
  length (summary lis) = length (remove_dups lis).
Proof.
  split.
  - rewrite summary_sorted_tuples. unfold sorted_tuples.
    rewrite merge_sort_Permutation, <- list_fmap_compose.
    change (sum_list (foldl count_card [] lis).*2 = length lis).
    induction lis as [|x lis IH] using rev_ind; [done|].
    rewrite foldl_snoc, count_card_sum, IH, length_app. simpl. lia.
  - apply summary_length.
Qed.


Lemma print_deck_length colored self (i : nat) (deck : list string) :
  length (print_deck colored self i deck)
  = if decide (deck = []) then 0 else S (length (remove_dups deck)).
Proof.
  unfold print_deck. destruct deck as [|c deck]; [done|].
  rewrite decide_False by done. rewrite decide_False by done.
  simpl length at 1. rewrite length_fmap.
  f_equal. apply _print_formatting_length.
Qed.

Lemma print_decks_length colored self (decks : list (list string)) (k : nat) :
  length (concat (imap (λ i, print_deck colored self (k + i)) decks))
  = sum_list_with
      (λ deck, if decide (deck = []) then 0 else S (length (remove_dups deck)))
      decks.
Proof.
  revert k. induction decks as [|deck decks IH]; intros k; [done|].
  rewrite imap_cons. simpl concat. rewrite length_app, print_deck_length.
  simpl sum_list_with. f_equal.
  rewrite <- (IH (S k)). do 2 f_equal. apply imap_ext.
  intros i deck' _. simpl. f_equal. lia.
Qed.


(** ** Snapshots on the file system *)

Section SnapshotFacts.
Context {text : Type}.
Variable json_dump : json → text.
Variable json_load : text → option json.

(** [load] looks at the named file only. *)
Lemma load_ext (file_name : string) (fs1 fs2 : gmap string text) :
  fs1 !! file_name = fs2 !! file_name →
  load json_load file_name fs1 = load json_load file_name fs2.
Proof. intros Heq. unfold load. by rewrite Heq. Qed.



(** [json.load] reads back what [json.dump] wrote. *)
Hypothesis json_load_dump : ∀ j, json_load (json_dump j) = Some j.

Lemma load_after_save (s : Decks) (file_name other : string)
    (fs : gmap string text) :
  load json_load other (save json_dump s file_name fs)
  = if decide (other = file_name) then Ok s else load json_load other fs.
Proof.
  destruct (decide (other = file_name)) as [->|Hne].
  - unfold load, save. rewrite lookup_insert_eq, json_load_dump. simpl.
    destruct (snapshot_lookup (json_of_decks (infection_deck s))
                (json_of_cards (discard_pile s))
                (json_of_colors (card_to_color s))) as (-> & -> & ->).
    simpl default.
    rewrite decks_of_json_of_decks, cards_of_json_of_cards,
      colors_of_json_of_colors.
    simpl. by destruct s.
  - apply load_ext. unfold save. by apply lookup_insert_ne.
Qed.
End SnapshotFacts.


(** ** The commands *)

Lemma apply_mutations_app (ms1 ms2 : list mutation) (s : Decks) :
  apply_mutations (ms1 ++ ms2) s
  = s1 ← apply_mutations ms1 s; apply_mutations ms2 s1.
Proof.
  revert s. induction ms1 as [|m ms1 IH]; intros s; simpl; [done|].
  destruct (apply_mutation m s) as [s1|e]; simpl; [apply IH|done].
Qed.

Lemma apply_mutations_fmap_Ok {A : Type} (f : A → mutation) (xs : list A)
    (s : Decks) :
  sentinel_bottom (infection_deck s) →
  (∀ x c, f x ≠ UnmarkCard c) →
  ∃ s', apply_mutations (f <$> xs) s = Ok s' ∧
        sentinel_bottom (infection_deck s').
Proof.
  intros Hinv Hf. revert s Hinv.
  induction xs as [|x xs IH]; intros s Hinv; simpl; [eauto|].
  destruct (apply_mutation_Ok_sentinel (f x) s Hinv (Hf x)) as (s1 & Hm).
  rewrite Hm. simpl. apply IH. by apply (apply_mutation_sentinel_bottom (f x) s).
Qed.

Section CommandFacts.
Context {text : Type}.
Variable json_dump : json → text.
Variable json_load : text → option json.
Variable str_strip : string → string.
Variable str_lower : string → string.

Local Abbreviation run := (invoke json_dump json_load str_strip str_lower).
Local Abbreviation after := (files_after json_dump json_load str_strip str_lower).
Local Abbreviation sess := (session json_dump json_load str_strip str_lower).
Local Abbreviation norm := (normalise str_strip str_lower).
Local Abbreviation rd := (load json_load).
Local Abbreviation wr := (save json_dump).

(** What an invocation that returns has done: it has read the state from
    one file and written the state it returns to one file, or, for
    [print], written nothing. *)
Lemma invoke_Ok_inv (i : invocation) (fs fs' : gmap string text) (decks : Decks) :
  run i fs = Ok (fs', decks) →
  (i = IPrint ∧ fs' = fs ∧ rd STATE_FILE_NAME fs = Ok decks) ∨
  (i = ISave ∧ fs' = wr decks SAVE_FILE_NAME fs ∧
   rd STATE_FILE_NAME fs = Ok decks) ∨
  (i = ILoad ∧ fs' = wr decks STATE_FILE_NAME fs ∧
   rd SAVE_FILE_NAME fs = Ok decks) ∨
  (i ≠ IPrint ∧ i ≠ ISave ∧ i ≠ ILoad ∧ fs' = wr decks STATE_FILE_NAME fs ∧
   ∃ decks0 ms, rd STATE_FILE_NAME fs = Ok decks0 ∧
                apply_mutations ms decks0 = Ok decks).
Proof.
  destruct i as [|cards|cards| |color cards| |]; simpl.
  - intros (d & Hload & [= <- <-])%bind_Ok. by left.
  - intros (d & Hload & (d' & Hms & [= <- <-])%bind_Ok)%bind_Ok.
    do 3 right. split_and!; [done..|]. eauto.
  - intros (d & Hload & (d' & Hms & [= <- <-])%bind_Ok)%bind_Ok.
    do 3 right. split_and!; [done..|]. eauto.
  - intros (d & Hload & [= <- <-])%bind_Ok.
    do 3 right. split_and!; [done..|]. exists d, [ReshuffleDiscard]. by split.
  - intros (d & Hload & (d' & Hms & [= <- <-])%bind_Ok)%bind_Ok.
    do 3 right. split_and!; [done..|]. eauto.
  - intros (d & Hload & [= <- <-])%bind_Ok. right. by left.
  - intros (d & Hload & [= <- <-])%bind_Ok. do 2 right. by left.
Qed.

Lemma after_lookup (i : invocation) (fs : gmap string text) (other : string) :
  (other ≠ STATE_FILE_NAME ∧ other ≠ SAVE_FILE_NAME) ∨
  (other = SAVE_FILE_NAME ∧ i ≠ ISave) →
  after i fs !! other = fs !! other.
Proof.
  intros Hother. unfold files_after.
  destruct (run i fs) as [[fs' decks]|e] eqn:Hrun; [|done].
  apply invoke_Ok_inv in Hrun
    as [(_ & -> & _)|[(-> & -> & _)|[(_ & -> & _)|(_ & _ & _ & -> & _)]]];
    [done|..]; unfold save; apply lookup_insert_ne;
    destruct Hother as [[? ?]|[-> ?]]; done.
Qed.

(** An invocation writes at most the working snapshot and the save file,
    and only [save] writes the save file; [print] writes nothing. *)
Theorem invocation_writes (i : invocation) (fs : gmap string text)
    (other : string) :
  (other ≠ STATE_FILE_NAME → other ≠ SAVE_FILE_NAME →
   after i fs !! other = fs !! other) ∧
  (i ≠ ISave → after i fs !! SAVE_FILE_NAME = fs !! SAVE_FILE_NAME) ∧
  after IPrint fs = fs.
Proof.
  split_and!.
  - intros Hstate Hsave. apply after_lookup. by left.
  - intros Hi. apply after_lookup. by right.
  - unfold files_after.
    destruct (run IPrint fs) as [[fs' decks]|e] eqn:Hrun; [|done].
    by apply invoke_Ok_inv in Hrun
      as [(_ & -> & _)|[(? & _)|[(? & _)|(? & _)]]].
Qed.

(** [json.load] reads back what [json.dump] wrote. *)
Hypothesis json_load_dump : ∀ j, json_load (json_dump j) = Some j.

(** The state an invocation prints is the state the next invocation
    reads from the working snapshot. *)
Theorem invoke_persisted (i : invocation) (fs fs' : gmap string text)
    (decks : Decks) :
  run i fs = Ok (fs', decks) → rd STATE_FILE_NAME fs' = Ok decks.
Proof.
  intros [(_ & -> & Hload)|[(_ & -> & Hload)|[(_ & -> & _)|(_ & _ & _ & -> & _)]]]
    %invoke_Ok_inv.
  - done.
  - by rewrite load_after_save, decide_False.
  - by rewrite load_after_save, decide_True.
  - by rewrite load_after_save, decide_True.
Qed.

(** [load] without a save file: the working snapshot is overwritten with
    the initial state. *)
Theorem load_cmd_without_save_file (fs : gmap string text) :
  fs !! SAVE_FILE_NAME = None →
  run ILoad fs = Ok (wr empty_state STATE_FILE_NAME fs, empty_state) ∧
  rd STATE_FILE_NAME (after ILoad fs) = Ok empty_state.
Proof.
  intros Hnone.
  assert (run ILoad fs = Ok (wr empty_state STATE_FILE_NAME fs, empty_state)) as Hrun.
  { simpl. unfold load_cmd, load. by rewrite Hnone. }
  split; [done|]. unfold files_after. rewrite Hrun.
  by rewrite load_after_save, decide_True.
Qed.

Lemma after_keeps_sentinel (i : invocation) (fs : gmap string text) :
  snapshots_keep_sentinel json_load fs →
  snapshots_keep_sentinel json_load (after i fs).
Proof.
  intros Hgood. unfold files_after.
  destruct (run i fs) as [[fs' decks]|e] eqn:Hrun; [|done].
  destruct (Hgood STATE_FILE_NAME) as (s0 & Hs0 & Hinv0); [by left|].
  destruct (Hgood SAVE_FILE_NAME) as (s1 & Hs1 & Hinv1); [by right|].
  assert (sentinel_bottom (infection_deck decks) ∧
          (fs' = fs ∨ fs' = wr decks STATE_FILE_NAME fs
           ∨ fs' = wr decks SAVE_FILE_NAME fs)) as [Hdecks Hfs].
  { apply invoke_Ok_inv in Hrun
      as [(_ & -> & Hload)|[(_ & -> & Hload)|[(_ & -> & Hload)
         |(_ & _ & _ & -> & d0 & ms & Hload & Hms)]]].
    - rewrite Hs0 in Hload. injection Hload as <-. auto.
    - rewrite Hs0 in Hload. injection Hload as <-. auto.
    - rewrite Hs1 in Hload. injection Hload as <-. auto.
    - rewrite Hs0 in Hload. injection Hload as <-.
      split; [|auto]. by apply (apply_mutations_sentinel_bottom ms s0). }
  intros f Hf. destruct Hfs as [-> |[-> | ->]]; [by apply Hgood|..];
    rewrite load_after_save by done;
    (destruct (decide (f = _)); [eauto|by apply Hgood]).
Qed.

Lemma session_keeps_sentinel (invs : list invocation) (fs : gmap string text) :
  snapshots_keep_sentinel json_load fs →
  snapshots_keep_sentinel json_load (sess invs fs).
Proof.
  revert fs. induction invs as [|i invs IH]; intros fs Hgood; [done|].
  simpl. apply IH. by apply after_keeps_sentinel.
Qed.

Lemma run_Ok_sentinel (i : invocation) (fs : gmap string text) :
  snapshots_keep_sentinel json_load fs →
  (∀ color cards, i = IMark color cards → str_lower color ≠ "none") →
  ∃ fs' decks, run i fs = Ok (fs', decks) ∧
               sentinel_bottom (infection_deck decks).
Proof.
  intros Hgood Hmark.
  destruct (Hgood STATE_FILE_NAME) as (s0 & Hs0 & Hinv0); [by left|].
  destruct (Hgood SAVE_FILE_NAME) as (s1 & Hs1 & Hinv1); [by right|].
  destruct i as [|cards|cards| |color cards| |]; simpl;
    unfold _print, draw_card, remove_discard_cmd, shuffle, mark, save_cmd, load_cmd;
    rewrite ?Hs0, ?Hs1; simpl; eauto.
  - destruct (apply_mutations_fmap_Ok (λ card, Draw (norm card)) cards s0 Hinv0)
      as (s' & -> & Hinv'); [done|]. simpl. eauto.
  - destruct (apply_mutations_fmap_Ok (λ card, RemoveDiscard (norm card)) cards
                s0 Hinv0) as (s' & -> & Hinv'); [done|]. simpl. eauto.
  - eexists _, _. split; [done|]. by apply reshuffle_sentinel_bottom.
  - destruct (decide (str_lower color = "none")) as [Heq|Hne];
      [by destruct (Hmark color cards eq_refl)|].
    destruct (apply_mutations_fmap_Ok (λ card, MarkCard (norm card) color) cards
                s0 Hinv0) as (s' & -> & Hinv'); [done|]. simpl. eauto.
Qed.

(** Starting with neither a working snapshot nor a save file, whatever
    invocations came before, an invocation reads, changes and writes the
    state without raising, unless it is [mark] with the colour "none".
    In particular no [draw_card] ever finds the sequence of decks
    empty. *)
Theorem session_never_raises (invs : list invocation) (i : invocation)
    (fs : gmap string text) :
  fs !! STATE_FILE_NAME = None → fs !! SAVE_FILE_NAME = None →
  (∀ color cards, i = IMark color cards → str_lower color ≠ "none") →
  ∃ fs' decks, run i (sess invs fs) = Ok (fs', decks) ∧
               infection_deck decks ≠ [].
Proof.
  intros Hstate Hsave Hmark.
  assert (snapshots_keep_sentinel json_load (sess invs fs)) as Hgood.
  { apply session_keeps_sentinel. intros f [-> | ->]; exists empty_state;
      (split; [|apply empty_state_sentinel_bottom]); unfold load;
      by rewrite ?Hstate, ?Hsave. }
  destruct (run_Ok_sentinel i _ Hgood Hmark) as (fs' & decks & Hrun & Hinv).
  exists fs', decks. split; [done|]. by apply sentinel_bottom_nonempty.
Qed.

Lemma sess_keeps_save_file (invs : list invocation) (fs : gmap string text) :
  ISave ∉ invs → sess invs fs !! SAVE_FILE_NAME = fs !! SAVE_FILE_NAME.
Proof.
  revert fs. induction invs as [|i invs IH]; intros fs Hns; [done|].
  apply not_elem_of_cons in Hns as [Hi Hns]. simpl.
  rewrite (IH _ Hns). apply after_lookup. right. split; [done|]. by intros ->.
Qed.

(** [save] and, any number of other invocations later, [load]: the
    working snapshot then holds the state that was saved. *)
Theorem save_then_load (invs : list invocation) (fs fs1 : gmap string text)
    (decks : Decks) :
  run ISave fs = Ok (fs1, decks) → ISave ∉ invs →
  ∃ fs2, run ILoad (sess invs fs1) = Ok (fs2, decks) ∧
         rd STATE_FILE_NAME fs2 = Ok decks.
Proof.
  intros Hsave Hns.
  apply invoke_Ok_inv in Hsave
    as [(? & _)|[(_ & -> & _)|[(? & _)|(_ & ? & _)]]]; try done.
  assert (rd SAVE_FILE_NAME (sess invs (wr decks SAVE_FILE_NAME fs)) = Ok decks)
    as Hload.
  { rewrite (load_ext json_load _ _ (wr decks SAVE_FILE_NAME fs))
      by by apply sess_keeps_save_file.
    by rewrite load_after_save, decide_True. }
  eexists. simpl. unfold load_cmd. rewrite Hload. simpl. split; [done|].
  by rewrite load_after_save, decide_True.
Qed.

(** Drawing in one invocation or in two: when [draw_card] with the cards
    of two lists returns, [draw_card] with the first list followed by
    [draw_card] with the second leaves the same files and ends in the
    same state. *)
Theorem draw_card_split (cards1 cards2 : list string) (fs fs' : gmap string text)
    (decks : Decks) :
  run (IDrawCard (cards1 ++ cards2)) fs = Ok (fs', decks) →
  run (IDrawCard cards2) (after (IDrawCard cards1) fs) = Ok (fs', decks).
Proof.
  simpl. unfold files_after. simpl. unfold draw_card.
  intros (d0 & Hload & (d2 & Hms & [= <- <-])%bind_Ok)%bind_Ok.
  rewrite Hload. simpl.
  rewrite fmap_app, apply_mutations_app in Hms.
  apply bind_Ok in Hms as (d1 & Hms1 & Hms2).
  rewrite Hms1. simpl.
  rewrite load_after_save, decide_True by done. simpl.
  rewrite Hms2. simpl. do 2 f_equal. apply insert_insert_eq.
Qed.

(** [mark] with a colour that lower-cases to "none" removes colours. When
    it returns, the cards named were pairwise different after
    normalisation and each of them had a colour; afterwards none of them
    has one, and the colours of the other cards are as before. *)
Theorem mark_none_unmarks (color : string) (cards : list string)
    (fs fs' : gmap string text) (decks' : Decks) :
  str_lower color = "none" →
  run (IMark color cards) fs = Ok (fs', decks') →
  ∃ decks, rd STATE_FILE_NAME fs = Ok decks ∧
           NoDup (norm <$> cards) ∧
           (∀ card, card ∈ cards → is_Some (card_to_color decks !! norm card)) ∧
           (∀ c, card_to_color decks' !! c
                 = if decide (c ∈ norm <$> cards) then None
                   else card_to_color decks !! c).
Proof.
  intros Hnone. simpl. unfold mark.
  intros (d0 & Hload & (d1 & Hms & [= <- <-])%bind_Ok)%bind_Ok.
  exists d0. split; [done|].
  assert ((λ card, if decide (str_lower color = "none")
                   then UnmarkCard (norm card) else MarkCard (norm card) color)
            <$> cards
          = UnmarkCard <$> (norm <$> cards)) as Heq.
  { rewrite <- list_fmap_compose. apply list_fmap_ext. intros j card _.
    by rewrite decide_True. }
  rewrite Heq in Hms. apply unmark_cards_Ok in Hms as (Hnd & Hall & Hlook).
  split_and!; [done| |done].
  intros card Hin. apply Hall, list_elem_of_fmap. eauto.
Qed.
End CommandFacts.

Lemma invocation_writes_witness :
  files_after (text:=json) id Some id id (IDrawCard ["atlanta"]) ∅ !! "cards.txt"
  = (∅ : gmap string json) !! "cards.txt".
Proof.
  apply (proj1 (invocation_writes id Some id id (IDrawCard ["atlanta"]) ∅ "cards.txt"));
    discriminate.
Defined.

Lemma invoke_persisted_witness :
  let decks := {| infection_deck := [[]]; discard_pile := ["atlanta"];
                  card_to_color := ∅ |} in
  load Some STATE_FILE_NAME (save id decks STATE_FILE_NAME ∅) = Ok decks.
Proof.
  intros decks.
  apply (invoke_persisted id Some id id (λ j, eq_refl) (IDrawCard ["atlanta"]) ∅).
  reflexivity.
Defined.

Lemma load_cmd_without_save_file_witness :
  let fs : gmap string json :=
    save id {| infection_deck := [["lima"]; []]; discard_pile := ["cairo"];
               card_to_color := ∅ |} STATE_FILE_NAME ∅ in
  invoke id Some id id ILoad fs = Ok (save id empty_state STATE_FILE_NAME fs, empty_state) ∧
  load Some STATE_FILE_NAME (files_after id Some id id ILoad fs) = Ok empty_state.
Proof.
  intros fs. apply (load_cmd_without_save_file id Some id id (λ j, eq_refl) fs).
  reflexivity.
Defined.

Lemma session_never_raises_witness :
  ∃ fs' decks,
    invoke (text:=json) id Some id id (IDrawCard ["cairo"])
      (session id Some id id
         [IDrawCard ["atlanta"]; IShuffle; IDrawCard ["atlanta"]; ISave; ILoad] ∅)
    = Ok (fs', decks) ∧
    infection_deck decks ≠ [].
Proof.
  apply (session_never_raises id Some id id (λ j, eq_refl)); [reflexivity..|].
  intros color cards Hi. discriminate Hi.
Defined.

Lemma save_then_load_witness :
  let decks := {| infection_deck := [[]]; discard_pile := ["atlanta"];
                  card_to_color := ∅ |} in
  let fs : gmap string json := save id decks STATE_FILE_NAME ∅ in
  ∃ fs2, invoke id Some id id ILoad
           (session id Some id id [IDrawCard ["cairo"]; IShuffle]
              (save id decks SAVE_FILE_NAME fs))
         = Ok (fs2, decks) ∧
         load Some STATE_FILE_NAME fs2 = Ok decks.
Proof.
  intros decks fs.
  apply (save_then_load id Some id id (λ j, eq_refl) [IDrawCard ["cairo"]; IShuffle] fs).
  - reflexivity.
  - intros Hin. repeat (apply elem_of_cons in Hin as [Hin|Hin]; [discriminate Hin|]).
    by apply elem_of_nil in Hin.
Defined.

Lemma draw_card_split_witness :
  let decks := {| infection_deck := [[]]; discard_pile := ["atlanta"; "cairo"];
                  card_to_color := ∅ |} in
  invoke (text:=json) id Some id id (IDrawCard ["cairo"])
    (files_after id Some id id (IDrawCard ["atlanta"]) ∅)
  = Ok (save id decks STATE_FILE_NAME ∅, decks).
Proof.
  intros decks.
  apply (draw_card_split id Some id id (λ j, eq_refl) ["atlanta"] ["cairo"] ∅).
  reflexivity.
Defined.

Lemma mark_none_unmarks_witness :
  let decks := {| infection_deck := [[]]; discard_pile := [];
                  card_to_color := {[ "atlanta" := "red" ]} |} in
  let fs : gmap string json := save id decks STATE_FILE_NAME ∅ in
  ∃ decks0, load Some STATE_FILE_NAME fs = Ok decks0 ∧
            NoDup (normalise id id <$> ["atlanta"]) ∧
            (∀ card, card ∈ ["atlanta"] →
                     is_Some (card_to_color decks0 !! normalise id id card)) ∧
            (∀ c, card_to_color empty_state !! c
                  = if decide (c ∈ normalise id id <$> ["atlanta"]) then None
                    else card_to_color decks0 !! c).
Proof.
  intros decks fs.
  apply (mark_none_unmarks id Some id id "none" ["atlanta"] fs
           (save id empty_state STATE_FILE_NAME fs) empty_state);
    reflexivity.
Defined.

(** ** Command names and completion *)

(** A shorthand reaches the command of its full name, which exists; and
    no full name of a command is taken for a shorthand. *)
Theorem get_command_shorthands :
  (∀ short full, shorthands !! short = Some full →
     get_command short = registered !! full ∧ is_Some (registered !! full)) ∧
  (∀ name, is_Some (registered !! name) → get_command name = registered !! name).
Proof.
  split.
  - assert (map_Forall
              (λ short full, get_command short = registered !! full ∧
                             is_Some (registered !! full)) shorthands) as Hall.
    { unfold shorthands.
      repeat (apply map_Forall_insert_2; [split; [reflexivity|by eexists]|]).
      apply map_Forall_empty. }
    intros short full Hshort. exact (Hall short full Hshort).
  - assert (map_Forall (λ short (_ : string), registered !! short = None)
              shorthands) as Hall.
    { unfold shorthands.
      repeat (apply map_Forall_insert_2; [reflexivity|]).
      apply map_Forall_empty. }
    intros name [c Hreg]. unfold get_command.
    destruct (shorthands !! name) as [full|] eqn:Hshort; [|done].
    rewrite (Hall name full Hshort) in Hreg. discriminate Hreg.
Qed.

Lemma replace_not_elem_of (a b : ascii) (s : string) :
  a ≠ b → a ∉ String.list_ascii_of_string (replace a b s).
Proof.
  intros Hne. induction s as [|c s IH]; simpl; [apply not_elem_of_nil|].
  apply not_elem_of_cons. split; [|done].
  destruct (decide (c = a)) as [->|Hca]; congruence.
Qed.

Section CompletionFacts.
Context {text : Type}.
Variable str_strip : string → string.
Variable str_lower : string → string.
Variable readlines : text → list string.

Local Abbreviation complete := (shell_complete str_strip str_lower readlines).

End CompletionFacts.
